(** * A set-associative cache simulator: [Cache/cache.c] and [cache.h]

    Shallow embedding of the cache constructor, the recency list, the line
    installation code and the access entry points, followed by the
    properties established for them.

    Conventions.
    - [size_t], [uintptr_t] and [uint64_t] are 64 bits wide (LP64), [int] and
      [unsigned int] 32 bits, [long] 64 bits; values are [Z] and every
      wrap-around is written out.
    - A C array is a [list]; reads and writes outside it are undefined
      behaviour and surface as [Undefined OutOfBounds].
    - Pointers into the byte memory are addresses ([Z]); the structures
      themselves ([cache_t], [cache_set_t], [cache_line_t]) are records.
    - [malloc] and [calloc] are taken to succeed (the source never tests
      their result). *)

From stdpp Require Import base numbers list.

Local Open Scope Z_scope.

(** ** Undefined behaviour as a result type *)

Inductive undefined : Set :=
  | DivisionByZero
  | ShiftOutOfRange
  | SignedOverflow
  | NullDereference
  | OverlappingCopy
  | OutOfBounds.

Inductive result (A : Type) : Type :=
  | Ok (a : A)
  | Undefined (u : undefined).
Arguments Ok {A} a.
Arguments Undefined {A} u.

#[global] Instance result_ret : MRet result := @Ok.
#[global] Instance result_bind : MBind result :=
  λ A B f r, match r with Ok a => f a | Undefined u => Undefined u end.

(** ** Machine integers *)

Definition wrap64 (x : Z) : Z := x mod 2 ^ 64.
Definition to_uint (x : Z) : Z := x mod 2 ^ 32.
Definition to_uint8 (x : Z) : Z := x mod 2 ^ 8.
(** Conversion to [int]: reduction modulo [2^32] into the signed range. *)
Definition to_int (x : Z) : Z := (x + 2 ^ 31) mod 2 ^ 32 - 2 ^ 31.

(** Largest [int]. *)
Definition INT_MAX : Z := 2 ^ 31 - 1.

(** [(size_t)-1]. *)
Definition SIZE_MAX : Z := 2 ^ 64 - 1.

(** [sizeof(uintptr_t)], in bytes. *)
Definition sizeof_uintptr_t : Z := 8.

(** Unsigned division [a / b]. *)
Definition udiv (a b : Z) : result Z :=
  if b =? 0 then Undefined DivisionByZero else Ok (a / b).

(** [x << n] on a [uint64_t]. *)
Definition shl64 (x n : Z) : result Z :=
  if (0 <=? n) && (n <? 64) then Ok (wrap64 (Z.shiftl x n))
  else Undefined ShiftOutOfRange.

(** [~x] on a [uintptr_t]. *)
Definition not64 (x : Z) : Z := wrap64 (Z.lnot x).

(** ** Arrays and counted loops

    An index is the value of an unsigned integer, hence never negative. *)

Definition aget {A} (a : list A) (i : Z) : result A :=
  match a !! Z.to_nat i with
  | Some x => Ok x
  | None => Undefined OutOfBounds
  end.

Definition aset {A} (a : list A) (i : Z) (x : A) : result (list A) :=
  if (Z.to_nat i <? length a)%nat then Ok (<[Z.to_nat i := x]> a)
  else Undefined OutOfBounds.

(** [n] iterations of [body], the counter starting at [i]. *)
Fixpoint for_loop {St} (n : nat) (i : Z) (body : Z → St → result St)
    (s : St) : result St :=
  match n with
  | O => Ok s
  | S n' => s' ← body i s; for_loop n' (i + 1) body s'
  end.

(** [for (i = lo; i < hi; i++) body]. *)
Definition for_range {St} (lo hi : Z) (body : Z → St → result St)
    (s : St) : result St :=
  for_loop (Z.to_nat (hi - lo)) lo body s.

(** ** cache.h: policies and structures *)

Definition CACHE_REPLACEMENTPOLICY_MASK : Z := 28.
Definition CACHE_REPLACEMENTPOLICY_RANDOM : Z := 0.
Definition CACHE_REPLACEMENTPOLICY_LRU : Z := 4.
Definition CACHE_REPLACEMENTPOLICY_MRU : Z := 8.
Definition CACHE_REPLACEMENTPOLICY_RANDOMIZED_MARKING : Z := 16.
Definition CACHE_WRITEPOLICY_MASK : Z := 3.
Definition CACHE_WRITEPOLICY_WRITETHROUGH : Z := 0.
Definition CACHE_WRITEPOLICY_WRITEALLOCATE : Z := 0.
Definition CACHE_WRITEPOLICY_WRITENOALLOCATE : Z := 2.

Record cache_line_t : Set := mk_line {
  is_valid : bool;
  is_dirty : bool;
  is_marked : bool;
  tag : Z;
  block : Z;  (* address of the line's bytes *)
}.

(** The [lines] pointer of a set always holds the cache's own [lines] array
    ([cache_new] passes [cache->lines] to every [cache_set_init]); the
    record keeps [first_index] and reads the lines from the cache. *)
Record cache_set_t : Set := mk_set {
  first_index : Z;
  lru_list : list Z;
  num_marked : Z;
}.

Record cache_t : Set := mk_cache {
  num_sets : Z;
  num_lines : Z;
  line_size : Z;
  associativity : Z;
  block_offset_mask : Z;
  cache_index_mask : Z;
  cache_index_shift : Z;
  tag_mask : Z;
  tag_shift : Z;
  policies : Z;
  memory : Z;  (* address of the cache's byte storage *)
  lines : list cache_line_t;
  sets : list cache_set_t;
  access_count : Z;
  miss_count : Z;
}.

(** [func_t], a pointer to a function of no argument returning [int]: the
    [k]-th call returns [g k]. *)
Definition func_t : Set := nat → Z.

Definition set_is_valid (b : bool) (l : cache_line_t) : cache_line_t :=
  mk_line b (is_dirty l) (is_marked l) (tag l) (block l).
Definition set_tag (t : Z) (l : cache_line_t) : cache_line_t :=
  mk_line (is_valid l) (is_dirty l) (is_marked l) t (block l).
Definition set_block (p : Z) (l : cache_line_t) : cache_line_t :=
  mk_line (is_valid l) (is_dirty l) (is_marked l) (tag l) p.
Definition set_lru_list (lru : list Z) (s : cache_set_t) : cache_set_t :=
  mk_set (first_index s) lru (num_marked s).
Definition set_lines (ls : list cache_line_t) (c : cache_t) : cache_t :=
  mk_cache (num_sets c) (num_lines c) (line_size c) (associativity c)
    (block_offset_mask c) (cache_index_mask c) (cache_index_shift c)
    (tag_mask c) (tag_shift c) (policies c) (memory c) ls (sets c)
    (access_count c) (miss_count c).

(** ** cache.c: construction *)

(** [cache_set_init]: one pass over [i < associativity] that invalidates
    line [first_index + i] of the shared array and writes [lru_list[i] = i].
    The freshly allocated [lru_list] is modelled zero-filled; the loop
    overwrites each of its entries. The counter [i] is an [int] that ends
    the loop at [associativity], so an associativity above [INT_MAX] makes
    its increment overflow. *)
Definition cache_set_init (associativity : Z) (lines : list cache_line_t)
    (first_index : Z) : result (cache_set_t * list cache_line_t) :=
  if associativity <=? INT_MAX then
    r ← for_range 0 associativity
          (λ i '(lru, lines),
             l ← aget lines (wrap64 (first_index + i));
             lines ← aset lines (wrap64 (first_index + i))
                       (set_is_valid false l);
             lru ← aset lru i i;
             Ok (lru, lines))
          (replicate (Z.to_nat associativity) 0, lines);
    Ok (mk_set first_index r.1 0, r.2)
  else Undefined SignedOverflow.

(** [logbase2]: the loop halves [value] while it exceeds one, which is
    structural recursion on the binary numeral. *)
Fixpoint logbase2_pos (p : positive) : Z :=
  match p with
  | xH => 0
  | xO p' | xI p' => 1 + logbase2_pos p'
  end.

Definition logbase2 (value : Z) : Z :=
  match value with
  | Zpos p => logbase2_pos p
  | _ => 0
  end.

(** [maskbits]: [(1L << nbits) - 1] on a signed 64-bit [long]; the shift is
    defined for [0 <= nbits <= 62] only. *)
Definition maskbits (nbits : Z) : result Z :=
  if (0 <=? nbits) && (nbits <=? 62) then Ok (Z.shiftl 1 nbits - 1)
  else Undefined ShiftOutOfRange.

Definition zero_line : cache_line_t := mk_line false false false 0 0.

(** [cache_new]. The extra first argument is the address returned by
    [malloc(num_bytes)]. *)
Definition cache_new (mem : Z) (num_bytes block_size associativity policies : Z)
  : result cache_t :=
  let line_size := block_size in
  num_lines ← udiv num_bytes block_size;
  num_sets ← udiv num_lines associativity;
  let offset_bits := to_uint (logbase2 block_size) in
  offset_mask ← maskbits (to_int offset_bits);
  let index_bits := to_uint (logbase2 num_sets) in
  index_mask ← maskbits (to_int index_bits);
  let cache_index_shift := offset_bits in
  cache_index_mask ← shl64 index_mask offset_bits;
  let tag_shift := to_uint8 (to_uint (offset_bits + index_bits)) in
  tag_field ← maskbits (to_int (wrap64 (sizeof_uintptr_t - tag_shift)));
  tag_mask ← shl64 tag_field tag_shift;
  lm ← for_range 0 num_lines
         (λ i '(lines, p),
            l ← aget lines i;
            lines ← aset lines i (set_block p l);
            Ok (lines, p + line_size))
         (replicate (Z.to_nat num_lines) zero_line, mem);
  sl ← for_range 0 num_sets
         (λ i '(sets, lines, first_index),
            r ← cache_set_init associativity lines first_index;
            sets ← aset sets i r.1;
            Ok (sets, r.2, wrap64 (first_index + associativity)))
         (replicate (Z.to_nat num_sets) (mk_set 0 [] 0), lm.1, 0);
  Ok (mk_cache num_sets num_lines line_size associativity
        offset_mask cache_index_mask cache_index_shift
        tag_mask tag_shift policies mem sl.1.2 sl.1.1 0 0).

(** ** cache.c: the recency list *)

(** First loop of [cache_line_make_mru]: scan [lru_list[i]] for
    [i < associativity] and stop at the first entry equal to [line_index];
    the initial value [(size_t)-1] is what remains when none is. *)
Fixpoint find_line_index (n : nat) (i : Z) (lru : list Z) (line_index : Z)
  : result Z :=
  match n with
  | O => Ok SIZE_MAX
  | S n' =>
      x ← aget lru i;
      if x =? line_index then Ok i
      else find_line_index n' (i + 1) lru line_index
  end.

(** [cache_line_make_mru]: the set is updated in place, so the updated set
    is returned. *)
Definition cache_line_make_mru (c : cache_t) (cache_set : cache_set_t)
    (line_index : Z) : result cache_set_t :=
  index_of_line_index ←
    find_line_index (Z.to_nat (associativity c)) 0 (lru_list cache_set)
      line_index;
  lru ← for_range (wrap64 (index_of_line_index + 1)) (associativity c)
          (λ i lru, x ← aget lru i; aset lru (wrap64 (i - 1)) x)
          (lru_list cache_set);
  lru ← aset lru (wrap64 (associativity c - 1)) line_index;
  Ok (set_lru_list lru cache_set).

(** ** Byte memory *)

(** The process memory: the byte stored at each address. Both the cache's
    own storage ([cache->memory]) and the memory that addresses passed to
    the cache point to live in it. *)
Definition heap : Type := Z → Z.

(** [memcpy(dst, src, n)]: the [n] bytes at [src] are copied to [dst];
    undefined when the two ranges of [n] bytes overlap. *)
Definition memcpy (h : heap) (dst src n : Z) : result heap :=
  if (0 <? n) && (src <? dst + n) && (dst <? src + n)
  then Undefined OverlappingCopy
  else Ok (λ a, if (dst <=? a) && (a <? dst + n) then h (src + (a - dst))
                else h a).


(** ** cache.c: the functions left with a placeholder body

    Each of these has, in the source, only a comment and (where a value is
    expected) a [return] of [0] or [NULL]; the embedding follows that body.
    A returned line pointer is the index of the line in [cache->lines], and
    [None] stands for [NULL]. *)

Definition cache_line_check_validity_and_tag (cache_line : cache_line_t)
    (tag : Z) : bool := false.

Definition cache_line_retrieve_data (h : heap) (cache_line : cache_line_t)
    (offset : Z) : Z := 0.

Definition cache_set_find_matching_line (c : cache_t) (set_index : Z)
    (tag : Z) : option Z * cache_t := (None, c).

Definition choose_unmarked_cache_line (c : cache_t) (set_index : Z)
    (generate_random_number : func_t) : Z * cache_t := (0, c).

Definition find_available_cache_line (c : cache_t) (set_index : Z)
    (generate_random_number : func_t) : option Z * cache_t := (None, c).

Definition cache_read (h : heap) (c : cache_t) (address : Z)
    (generate_random_number : func_t) : Z * (heap * cache_t) := (0, (h, c)).

Definition cache_write (h : heap) (c : cache_t) (address value : Z)
    (generate_random_number : func_t) : heap * cache_t := (h, c).

Definition cache_miss_count (c : cache_t) : Z := miss_count c.
Definition cache_access_count (c : cache_t) : Z := access_count c.

(** ** cache.c: installing a block *)

(** The body of [cache_set_add] after the line has been located: store the
    tag, set the valid bit and copy [line_size] bytes from the block-aligned
    address into the line's block. *)
Definition cache_set_add_setup (h : heap) (c : cache_t) (line : Z)
    (address tag : Z) : result (heap * cache_t) :=
  l ← aget (lines c) line;
  let l := set_is_valid true (set_tag tag l) in
  lines' ← aset (lines c) line l;
  h' ← memcpy h (block l) (Z.land address (not64 (block_offset_mask c)))
         (line_size c);
  Ok (h', set_lines lines' c).

(** [cache_set_add]: the pointer [find_available_cache_line] returns is
    used without a test. *)
Definition cache_set_add (h : heap) (c : cache_t) (set_index : Z)
    (address tag : Z) (generate_random_number : func_t)
  : result (Z * (heap * cache_t)) :=
  match find_available_cache_line c set_index generate_random_number with
  | (None, _) => Undefined NullDereference
  | (Some line, c') =>
      r ← cache_set_add_setup h c' line address tag; Ok (line, r)
  end.

(** ** The address decoder *)

(** Modelled from the spec: the tag expression of the address decoder,
    [(address & tag_mask) >> tag_shift]. The source computes and stores the
    two fields in [cache_new]; [cache_read], where an address would be
    decoded, has a placeholder body. *)
Definition decode_tag (c : cache_t) (address : Z) : Z :=
  Z.shiftr (Z.land address (tag_mask c)) (tag_shift c).

(** The bits of [address] above its [offset_bits + index_bits] low bits. *)
Definition address_high_bits (offset_bits index_bits address : Z) : Z :=
  Z.shiftr address (offset_bits + index_bits).

(** ** What construction builds *)

(** Line [i] of a fresh cache: all three flags clear, tag [0], and the block
    at [mem + i * line_size]. *)
Definition fresh_lines (mem line_size num_lines : Z) : list cache_line_t :=
  (λ i, mk_line false false false 0 (mem + i * line_size)) <$> seqZ 0 num_lines.

(** Set [k] of a fresh cache: first line [k * associativity], the identity
    recency list and no marked line. *)
Definition fresh_sets (associativity num_sets : Z) : list cache_set_t :=
  (λ k, mk_set (k * associativity) (seqZ 0 associativity) 0) <$> seqZ 0 num_sets.

(** The masks and shifts [cache_new] stores, as a function of the two bit
    counts. *)
Definition cache_new_masks (offset_bits index_bits : Z)
  : result (Z * Z * Z * Z) :=
  offset_mask ← maskbits (to_int offset_bits);
  index_mask ← maskbits (to_int index_bits);
  cache_index_mask ← shl64 index_mask offset_bits;
  let tag_shift := to_uint8 (to_uint (offset_bits + index_bits)) in
  tag_field ← maskbits (to_int (wrap64 (sizeof_uintptr_t - tag_shift)));
  tag_mask ← shl64 tag_field tag_shift;
  Ok (offset_mask, cache_index_mask, tag_mask, tag_shift).

(** A size is a power of two. *)
Definition is_power_of_two (n : Z) : Prop := ∃ k, 0 ≤ k ∧ n = 2 ^ k.

(** The construction preconditions: both sizes are powers of two and the
    associativity is positive and divides the number of lines. *)
Definition valid_configuration (num_bytes block_size associativity : Z) : Prop :=
  is_power_of_two num_bytes ∧ is_power_of_two block_size
  ∧ 0 < associativity ∧ (num_bytes / block_size) mod associativity = 0.

(** The value of a [size_t]. *)
Definition is_size_t (x : Z) : Prop := 0 ≤ x < 2 ^ 64.

(** ** Sequences of uses *)

(** [cache_line_make_mru] applied to the line indices of [uses], first to
    last, on the same set. *)
Fixpoint make_mru_all (c : cache_t) (cache_set : cache_set_t) (uses : list Z)
  : result cache_set_t :=
  match uses with
  | [] => Ok cache_set
  | line_index :: uses' =>
      cache_set' ← cache_line_make_mru c cache_set line_index;
      make_mru_all c cache_set' uses'
  end.

(** The distinct entries of [uses], ordered by their last occurrence. *)
Fixpoint last_use_order (uses : list Z) : list Z :=
  match uses with
  | [] => []
  | x :: uses' =>
      if decide (x ∈ uses') then last_use_order uses'
      else x :: last_use_order uses'
  end.

(** * Properties *)

(** ** The result monad and the loops *)

Lemma bind_Ok {A B} (r : result A) (f : A → result B) (b : B) :
  r ≫= f = Ok b → ∃ a, r = Ok a ∧ f a = Ok b.
Proof. destruct r as [a|u]; [eauto | discriminate]. Qed.

Lemma aget_Some {A} (a : list A) (i : Z) (x : A) :
  a !! Z.to_nat i = Some x → aget a i = Ok x.
Proof. unfold aget. by intros ->. Qed.

Lemma aset_lt {A} (a : list A) (i : Z) (x : A) :
  (Z.to_nat i < length a)%nat → aset a i x = Ok (<[Z.to_nat i := x]> a).
Proof.
  intros H. unfold aset.
  by destruct (Nat.ltb_spec (Z.to_nat i) (length a)); [|lia].
Qed.

(** Storing back the element already there leaves the array as it was. *)
Lemma aset_same {A} (a : list A) (i : Z) (x : A) :
  a !! Z.to_nat i = Some x → aset a i x = Ok a.
Proof.
  intros H. rewrite aset_lt by (by eapply lookup_lt_Some).
  by rewrite list_insert_id.
Qed.

(** Invariant rule for a counted loop: an invariant [P] that holds at entry
    and survives every iteration, each of which is defined, holds at exit. *)
Lemma for_loop_inv {St} (P : Z → St → Prop) (body : Z → St → result St) :
  ∀ (n : nat) (i : Z) (s : St),
    P i s →
    (∀ j t, i ≤ j < i + Z.of_nat n → P j t →
            ∃ t', body j t = Ok t' ∧ P (j + 1) t') →
    ∃ s', for_loop n i body s = Ok s' ∧ P (i + Z.of_nat n) s'.
Proof.
  induction n as [|n IH]; intros i s HP Hstep.
  - exists s. split; [done|]. by replace (i + Z.of_nat 0) with i by lia.
  - destruct (Hstep i s) as (t & Hb & HP'); [lia | done |].
    destruct (IH (i + 1) t HP') as (s' & Hl & HP'').
    { intros j u Hj. apply Hstep. lia. }
    exists s'. split.
    + cbn [for_loop]. rewrite Hb. exact Hl.
    + by replace (i + Z.of_nat (S n)) with (i + 1 + Z.of_nat n) by lia.
Qed.

Lemma for_range_inv {St} (P : Z → St → Prop) (body : Z → St → result St)
    (lo hi : Z) (s : St) :
  lo ≤ hi →
  P lo s →
  (∀ j t, lo ≤ j < hi → P j t → ∃ t', body j t = Ok t' ∧ P (j + 1) t') →
  ∃ s', for_range lo hi body s = Ok s' ∧ P hi s'.
Proof.
  intros Hle HP Hstep. unfold for_range.
  destruct (for_loop_inv P body (Z.to_nat (hi - lo)) lo s HP)
    as (s' & Hl & HP').
  { intros j t Hj. apply Hstep. lia. }
  exists s'. split; [done|].
  by replace (lo + Z.of_nat (Z.to_nat (hi - lo))) with hi in HP' by lia.
Qed.

(** ** Construction *)

Lemma replicate_pred {A} (x : A) (n j : Z) :
  0 ≤ j < n →
  replicate (Z.to_nat (n - j)) x = x :: replicate (Z.to_nat (n - (j + 1))) x.
Proof.
  intros H. replace (Z.to_nat (n - j)) with (S (Z.to_nat (n - (j + 1)))) by lia.
  done.
Qed.

Lemma seqZ_snoc (j : Z) : 0 ≤ j → seqZ 0 (j + 1) = seqZ 0 j ++ [j].
Proof. intros H. by rewrite seqZ_app by lia. Qed.

Lemma length_fresh_lines (mem ls n : Z) :
  length (fresh_lines mem ls n) = Z.to_nat n.
Proof. unfold fresh_lines. by rewrite length_fmap, length_seqZ. Qed.

Lemma fresh_lines_lookup (mem ls n i : Z) :
  0 ≤ i < n →
  fresh_lines mem ls n !! Z.to_nat i
  = Some (mk_line false false false 0 (mem + i * ls)).
Proof.
  intros H. unfold fresh_lines. rewrite list_lookup_fmap.
  rewrite (lookup_seqZ_lt 0 n (Z.to_nat i)) by lia. cbn.
  by rewrite Z2Nat.id by lia.
Qed.

Lemma length_fresh_sets (assoc n : Z) :
  length (fresh_sets assoc n) = Z.to_nat n.
Proof. unfold fresh_sets. by rewrite length_fmap, length_seqZ. Qed.

Lemma fresh_sets_lookup (assoc n k : Z) :
  0 ≤ k < n →
  fresh_sets assoc n !! Z.to_nat k = Some (mk_set (k * assoc) (seqZ 0 assoc) 0).
Proof.
  intros H. unfold fresh_sets. rewrite list_lookup_fmap.
  rewrite (lookup_seqZ_lt 0 n (Z.to_nat k)) by lia. cbn.
  by rewrite Z2Nat.id by lia.
Qed.

(** The loop of [cache_new] over the lines hands line [i] the address
    [mem + i * line_size]. *)
Lemma cache_new_lines_loop (mem ls nl : Z) :
  0 ≤ nl →
  for_range 0 nl
    (λ i '(lines, p),
       l ← aget lines i;
       lines ← aset lines i (set_block p l);
       Ok (lines, p + ls))
    (replicate (Z.to_nat nl) zero_line, mem)
  = Ok (fresh_lines mem ls nl, mem + nl * ls).
Proof.
  intros Hnl.
  set (P := λ (j : Z) (t : list cache_line_t * Z),
    t = (fresh_lines mem ls j ++ replicate (Z.to_nat (nl - j)) zero_line,
         mem + j * ls)).
  edestruct (for_range_inv P) as (s' & -> & HP); [exact Hnl | | | ].
  - unfold P. f_equal; [|lia]. by rewrite Z.sub_0_r.
  - intros j [ls0 p] Hj HP. unfold P in HP. injection HP as -> ->.
    eexists. split; [|reflexivity].
    assert (Hlen : length (fresh_lines mem ls j) = Z.to_nat j)
      by apply length_fresh_lines.
    rewrite (replicate_pred zero_line nl j) by lia.
    erewrite aget_Some; last first.
    { rewrite lookup_app_r by lia. by rewrite Hlen, Nat.sub_diag. }
    cbn [mbind result_bind].
    rewrite aset_lt by (rewrite length_app; cbn [length]; lia).
    cbn [mbind result_bind]. do 2 f_equal; [|lia].
    rewrite <- Hlen, insert_app_r_alt, Nat.sub_diag by lia. cbn [list_insert insert].
    unfold fresh_lines. rewrite seqZ_snoc, fmap_app by lia.
    by rewrite <- app_assoc.
  - unfold P in HP. subst s'. f_equal. f_equal.
    rewrite Z.sub_diag. apply app_nil_r.
Qed.

Lemma set_is_valid_false_id (l : cache_line_t) :
  is_valid l = false → set_is_valid false l = l.
Proof. destruct l as [v d m t b]. cbn. by intros ->. Qed.

(** On lines that are already invalid, [cache_set_init] leaves the shared
    array as it is and returns the set with the identity recency list. *)
Lemma cache_set_init_fresh (assoc : Z) (L : list cache_line_t) (fi : Z) :
  0 ≤ assoc ≤ INT_MAX → 0 ≤ fi → fi + assoc ≤ 2 ^ 64 →
  (∀ i, fi ≤ i < fi + assoc →
        ∃ l, L !! Z.to_nat i = Some l ∧ is_valid l = false) →
  cache_set_init assoc L fi = Ok (mk_set fi (seqZ 0 assoc) 0, L).
Proof.
  intros [Ha Hmax] Hfi Hwrap HL. unfold cache_set_init.
  destruct (Z.leb_spec assoc INT_MAX); [|lia].
  set (P := λ (j : Z) (t : list Z * list cache_line_t),
    t = (seqZ 0 j ++ replicate (Z.to_nat (assoc - j)) 0, L)).
  edestruct (for_range_inv P) as (s' & -> & HP); [exact Ha | | | ].
  - unfold P. by rewrite Z.sub_0_r.
  - intros j [lru ls0] Hj HP. unfold P in HP. injection HP as -> ->.
    eexists. split; [|reflexivity].
    destruct (HL (fi + j)) as (l & Hl & Hv); [lia|].
    unfold wrap64. rewrite (Z.mod_small (fi + j)) by lia.
    rewrite (aget_Some _ _ _ Hl). cbn [mbind result_bind].
    rewrite set_is_valid_false_id by done.
    rewrite (aset_same _ _ _ Hl). cbn [mbind result_bind].
    assert (Hlen : length (seqZ 0 j) = Z.to_nat j) by apply length_seqZ.
    rewrite (replicate_pred 0 assoc j) by lia.
    rewrite aset_lt by (rewrite length_app; cbn [length]; lia).
    cbn [mbind result_bind]. do 2 f_equal.
    rewrite <- Hlen, insert_app_r_alt, Nat.sub_diag by lia.
    cbn [list_insert insert].
    by rewrite seqZ_snoc, <- app_assoc by lia.
  - unfold P in HP. subst s'. cbn [mbind result_bind fst snd].
    by rewrite Z.sub_diag, app_nil_r.
Qed.

(** The loop of [cache_new] over the sets. *)
Lemma cache_new_sets_loop (assoc ns : Z) (L : list cache_line_t) :
  0 < assoc → 0 ≤ ns → ns * assoc < 2 ^ 64 →
  (0 < ns → assoc ≤ INT_MAX) →
  (∀ i, 0 ≤ i < ns * assoc →
        ∃ l, L !! Z.to_nat i = Some l ∧ is_valid l = false) →
  for_range 0 ns
    (λ i '(sets, lines, first_index),
       r ← cache_set_init assoc lines first_index;
       sets ← aset sets i r.1;
       Ok (sets, r.2, wrap64 (first_index + assoc)))
    (replicate (Z.to_nat ns) (mk_set 0 [] 0), L, 0)
  = Ok (fresh_sets assoc ns, L, ns * assoc).
Proof.
  intros Ha Hns Hbound Hmax HL.
  set (P := λ (j : Z) (t : list cache_set_t * list cache_line_t * Z),
    t = (fresh_sets assoc j ++ replicate (Z.to_nat (ns - j)) (mk_set 0 [] 0),
         L, j * assoc)).
  edestruct (for_range_inv P) as (s' & -> & HP); [exact Hns | | | ].
  - unfold P. by rewrite Z.sub_0_r.
  - intros j [[ss ls0] fi] Hj HP. unfold P in HP. injection HP as -> -> ->.
    eexists. split; [|reflexivity].
    rewrite cache_set_init_fresh;
      [| lia | nia | nia | intros i Hi; apply HL; nia].
    cbn [mbind result_bind fst snd].
    assert (Hlen : length (fresh_sets assoc j) = Z.to_nat j)
      by apply length_fresh_sets.
    rewrite (replicate_pred (mk_set 0 [] 0) ns j) by lia.
    rewrite aset_lt by (rewrite length_app; cbn [length]; lia).
    cbn [mbind result_bind]. do 2 f_equal.
    + f_equal.
      rewrite <- Hlen, insert_app_r_alt, Nat.sub_diag by lia.
      cbn [list_insert insert].
      unfold fresh_sets. rewrite seqZ_snoc, fmap_app by lia.
      by rewrite <- app_assoc.
    + unfold wrap64. rewrite Z.mod_small by nia. lia.
  - unfold P in HP. subst s'. do 3 f_equal.
    rewrite Z.sub_diag. apply app_nil_r.
Qed.

(** With more than [INT_MAX] lines per set the first [cache_set_init]
    already overflows its counter. *)
Lemma cache_new_sets_loop_overflow (assoc ns : Z) (L : list cache_line_t) :
  0 < ns → INT_MAX < assoc →
  for_range 0 ns
    (λ i '(sets, lines, first_index),
       r ← cache_set_init assoc lines first_index;
       sets ← aset sets i r.1;
       Ok (sets, r.2, wrap64 (first_index + assoc)))
    (replicate (Z.to_nat ns) (mk_set 0 [] 0), L, 0)
  = Undefined SignedOverflow.
Proof.
  intros Hns Hmax. unfold for_range.
  replace (Z.to_nat (ns - 0)) with (S (Z.to_nat (ns - 1))) by lia.
  cbn [for_loop]. unfold cache_set_init.
  by destruct (Z.leb_spec assoc INT_MAX); [lia|].
Qed.

(** [cache_new] in closed form: the two quotients, the masks, and the fresh
    lines and sets. *)
Lemma cache_new_closed (mem nb bs assoc pol : Z) :
  0 ≤ nb < 2 ^ 64 → 0 < bs → 0 < assoc →
  cache_new mem nb bs assoc pol
  = m ← cache_new_masks (to_uint (logbase2 bs))
          (to_uint (logbase2 (nb / bs / assoc)));
    if (0 <? nb / bs / assoc) && (INT_MAX <? assoc)
    then Undefined SignedOverflow
    else Ok (mk_cache (nb / bs / assoc) (nb / bs) bs assoc
               m.1.1.1 m.1.1.2 (to_uint (logbase2 bs)) m.1.2 m.2 pol mem
               (fresh_lines mem bs (nb / bs))
               (fresh_sets assoc (nb / bs / assoc)) 0 0).
Proof.
  intros Hnb Hbs Ha. unfold cache_new, cache_new_masks, udiv.
  destruct (Z.eqb_spec bs 0) as [?|_]; [lia|].
  destruct (Z.eqb_spec assoc 0) as [?|_]; [lia|].
  cbn [mbind result_bind].
  assert (Hnl : 0 ≤ nb / bs) by (apply Z.div_pos; lia).
  assert (Hnlb : nb / bs ≤ nb) by (apply Z.div_le_upper_bound; nia).
  assert (Hns : 0 ≤ nb / bs / assoc) by (apply Z.div_pos; lia).
  assert (Hnsb : nb / bs / assoc * assoc ≤ nb / bs)
    by (rewrite Z.mul_comm; apply Z.mul_div_le; lia).
  destruct (maskbits (to_int (to_uint (logbase2 bs)))) as [om|];
    cbn [mbind result_bind]; [|reflexivity].
  destruct (maskbits (to_int (to_uint (logbase2 (nb / bs / assoc)))))
    as [im|]; cbn [mbind result_bind]; [|reflexivity].
  destruct (shl64 im _) as [cim|]; cbn [mbind result_bind]; [|reflexivity].
  destruct (maskbits _) as [tf|]; cbn [mbind result_bind]; [|reflexivity].
  destruct (shl64 tf _) as [tm|]; cbn [mbind result_bind]; [|reflexivity].
  rewrite cache_new_lines_loop by done. cbn [mbind result_bind fst snd].
  destruct (Z.ltb_spec 0 (nb / bs / assoc)) as [Hpos|Hzero];
    [destruct (Z.ltb_spec INT_MAX assoc) as [Hbig|Hsmall]|]; cbn [andb].
  - by rewrite cache_new_sets_loop_overflow.
  - rewrite cache_new_sets_loop; [reflexivity | done | done | lia | done |].
    intros i Hi. eexists. split; [apply fresh_lines_lookup; lia | done].
  - rewrite cache_new_sets_loop; [reflexivity | done | done | lia | lia |].
    intros i Hi. eexists. split; [apply fresh_lines_lookup; lia | done].
Qed.

Lemma cache_new_Ok_inv (mem nb bs assoc pol : Z) (c : cache_t) :
  is_size_t nb → is_size_t bs → is_size_t assoc →
  cache_new mem nb bs assoc pol = Ok c →
  0 < bs ∧ 0 < assoc ∧ (0 < nb / bs / assoc → assoc ≤ INT_MAX)
  ∧ ∃ m, cache_new_masks (to_uint (logbase2 bs))
           (to_uint (logbase2 (nb / bs / assoc))) = Ok m
         ∧ c = mk_cache (nb / bs / assoc) (nb / bs) bs assoc
                 m.1.1.1 m.1.1.2 (to_uint (logbase2 bs)) m.1.2 m.2 pol mem
                 (fresh_lines mem bs (nb / bs))
                 (fresh_sets assoc (nb / bs / assoc)) 0 0.
Proof.
  unfold is_size_t. intros Hnb Hbs Ha Hc.
  assert (bs ≠ 0) as Hbs0.
  { intros ->. discriminate Hc. }
  assert (assoc ≠ 0) as Ha0.
  { intros ->. unfold cache_new, udiv in Hc.
    destruct (Z.eqb_spec bs 0); [done|]. discriminate Hc. }
  split; [lia|]. split; [lia|].
  rewrite cache_new_closed in Hc by lia.
  apply bind_Ok in Hc as (m & Hm & Hc).
  destruct (Z.ltb_spec 0 (nb / bs / assoc)) as [Hpos|Hzero];
    [destruct (Z.ltb_spec INT_MAX assoc) as [Hbig|Hsmall]|];
    cbn [andb] in Hc; [discriminate Hc| |].
  - split; [done|]. exists m. split; [done|]. by injection Hc as <-.
  - split; [lia|]. exists m. split; [done|]. by injection Hc as <-.
Qed.

(** ** Sizes and masks *)

Lemma logbase2_log2 (value : Z) : logbase2 value = Z.log2 value.
Proof.
  destruct value as [|p|p]; [done| |done]. cbn [logbase2].
  induction p as [p IH|p IH|]; [| |done].
  - cbn [logbase2_pos]. rewrite IH.
    change (Z.pos p~1) with (2 * Z.pos p + 1).
    rewrite Z.log2_succ_double by lia. lia.
  - cbn [logbase2_pos]. rewrite IH.
    change (Z.pos p~0) with (2 * Z.pos p).
    rewrite Z.log2_double by lia. lia.
Qed.

Lemma logbase2_nonneg (value : Z) : 0 ≤ logbase2 value.
Proof. rewrite logbase2_log2. apply Z.log2_nonneg. Qed.

Lemma to_uint_small (x : Z) : 0 ≤ x < 2 ^ 32 → to_uint x = x.
Proof. intros H. unfold to_uint. by rewrite Z.mod_small. Qed.

Lemma to_int_small (x : Z) : - 2 ^ 31 ≤ x < 2 ^ 31 → to_int x = x.
Proof. intros H. unfold to_int. rewrite Z.mod_small; lia. Qed.

Lemma maskbits_small (n : Z) : 0 ≤ n ≤ 62 → maskbits n = Ok (2 ^ n - 1).
Proof.
  intros H. unfold maskbits.
  destruct (Z.leb_spec 0 n); [|lia]. destruct (Z.leb_spec n 62); [|lia].
  cbn [andb]. by rewrite Z.shiftl_1_l.
Qed.

(** With [offset_bits + index_bits <= 8] every shift of [cache_new] is
    defined; the tag mask then covers bits [tag_shift .. 7] only, eight being
    [sizeof(uintptr_t)]. *)
Lemma cache_new_masks_small (ob ib : Z) :
  0 ≤ ob → 0 ≤ ib → ob + ib ≤ 8 →
  cache_new_masks ob ib
  = Ok (2 ^ ob - 1, (2 ^ ib - 1) * 2 ^ ob, 2 ^ 8 - 2 ^ (ob + ib), ob + ib).
Proof.
  intros Hob Hib Hsum. unfold cache_new_masks.
  assert (Hp : ∀ k, 0 ≤ k ≤ 8 → 0 < 2 ^ k ≤ 2 ^ 8).
  { intros k Hk. split; [apply Z.pow_pos_nonneg; lia|].
    apply Z.pow_le_mono_r; lia. }
  pose proof (Hp ob ltac:(lia)) as Hpo. pose proof (Hp ib ltac:(lia)) as Hpi.
  pose proof (Hp (ob + ib) ltac:(lia)) as Hps.
  pose proof (Hp (8 - (ob + ib)) ltac:(lia)) as Hpt.
  change (2 ^ 8) with 256 in *.
  rewrite (to_int_small ob), (to_int_small ib) by lia.
  rewrite (maskbits_small ob), (maskbits_small ib) by lia.
  cbn [mbind result_bind]. unfold shl64. destruct (Z.leb_spec 0 ob); [|lia].
  destruct (Z.ltb_spec ob 64); [|lia]. cbn [andb mbind result_bind].
  rewrite (to_uint_small (ob + ib)) by lia.
  unfold to_uint8. rewrite (Z.mod_small (ob + ib)) by lia.
  unfold wrap64, sizeof_uintptr_t.
  rewrite (Z.mod_small (8 - (ob + ib))) by lia.
  rewrite to_int_small, maskbits_small by lia. cbn [mbind result_bind].
  destruct (Z.leb_spec 0 (ob + ib)); [|lia].
  destruct (Z.ltb_spec (ob + ib) 64); [|lia]. cbn [andb].
  rewrite !Z.shiftl_mul_pow2 by lia.
  assert (Hprod : 2 ^ ib * 2 ^ ob = 2 ^ (ob + ib))
    by (rewrite <- Z.pow_add_r by lia; f_equal; lia).
  assert (Hprod' : 2 ^ (8 - (ob + ib)) * 2 ^ (ob + ib) = 256).
  { rewrite <- Z.pow_add_r by lia.
    by replace (8 - (ob + ib) + (ob + ib)) with 8 by lia. }
  cbn [mbind result_bind]. change (2 ^ 64) with 18446744073709551616.
  rewrite (Z.mod_small ((2 ^ ib - 1) * 2 ^ ob)) by nia.
  rewrite (Z.mod_small ((2 ^ (8 - (ob + ib)) - 1) * 2 ^ (ob + ib))) by nia.
  do 2 f_equal. f_equal. nia.
Qed.

Lemma logbase2_size_t (value : Z) : is_size_t value → 0 ≤ logbase2 value ≤ 63.
Proof.
  unfold is_size_t. intros H. split; [apply logbase2_nonneg|].
  rewrite logbase2_log2.
  destruct (Z.eq_dec value 0) as [->|Hne]; [done|].
  assert (Z.log2 value < 64); [|lia]. apply Z.log2_lt_pow2; lia.
Qed.

(** Past [offset_bits + index_bits = 8] the tag field width
    [sizeof(uintptr_t) - tag_shift] is negative and the shift in [maskbits]
    is undefined. *)
Lemma cache_new_masks_Ok (ob ib : Z) (m : Z * Z * Z * Z) :
  0 ≤ ob ≤ 63 → 0 ≤ ib ≤ 63 → cache_new_masks ob ib = Ok m → ob + ib ≤ 8.
Proof.
  intros Hob Hib Hm. unfold cache_new_masks in Hm.
  apply bind_Ok in Hm as (om & _ & Hm). apply bind_Ok in Hm as (im & _ & Hm).
  apply bind_Ok in Hm as (cim & _ & Hm). apply bind_Ok in Hm as (tf & Htf & _).
  destruct (Z.le_gt_cases (ob + ib) 8) as [|Hgt]; [done|exfalso].
  rewrite (to_uint_small (ob + ib)) in Htf by lia.
  unfold to_uint8 in Htf. rewrite (Z.mod_small (ob + ib)) in Htf by lia.
  unfold wrap64, sizeof_uintptr_t, to_int in Htf.
  change (2 ^ 64) with (2 ^ 32 * 2 ^ 32) in Htf.
  replace ((8 - (ob + ib)) mod (2 ^ 32 * 2 ^ 32))
    with (2 ^ 32 * 2 ^ 32 + (8 - (ob + ib))) in Htf
    by (apply Z.mod_unique with (q := -1); lia).
  replace ((2 ^ 32 * 2 ^ 32 + (8 - (ob + ib)) + 2 ^ 31) mod 2 ^ 32)
    with (8 - (ob + ib) + 2 ^ 31) in Htf
    by (apply Z.mod_unique with (q := 2 ^ 32); lia).
  unfold maskbits in Htf.
  destruct (Z.leb_spec 0 (8 - (ob + ib) + 2 ^ 31 - 2 ^ 31)); [lia|].
  discriminate Htf.
Qed.

(** The calls of [cache_new] whose behaviour is defined. *)
Lemma cache_new_defined_iff (mem nb bs assoc pol : Z) :
  is_size_t nb → is_size_t bs → is_size_t assoc →
  (∃ c, cache_new mem nb bs assoc pol = Ok c)
  ↔ 0 < bs ∧ 0 < assoc
    ∧ logbase2 bs + logbase2 (nb / bs / assoc) ≤ 8
    ∧ (0 < nb / bs / assoc → assoc ≤ INT_MAX).
Proof.
  intros Hnb Hbs Ha.
  assert (Hq : 0 < bs → 0 < assoc → is_size_t (nb / bs / assoc)).
  { unfold is_size_t in *. intros ? ?.
    assert (0 ≤ nb / bs) by (apply Z.div_pos; lia).
    assert (nb / bs ≤ nb) by (apply Z.div_le_upper_bound; nia).
    split; [apply Z.div_pos; lia|].
    assert (nb / bs / assoc ≤ nb / bs); [|lia].
    apply Z.div_le_upper_bound; nia. }
  split.
  - intros [c Hc].
    destruct (cache_new_Ok_inv _ _ _ _ _ _ Hnb Hbs Ha Hc)
      as (Hbs' & Ha' & Hmax & m & Hm & _).
    split; [done|]. split; [done|]. split; [|done].
    pose proof (logbase2_size_t bs Hbs).
    pose proof (logbase2_size_t _ (Hq Hbs' Ha')).
    rewrite !to_uint_small in Hm by lia.
    eapply cache_new_masks_Ok; [| |exact Hm]; lia.
  - intros (Hbs' & Ha' & Hsum & Hmax).
    pose proof (logbase2_nonneg bs). pose proof (logbase2_nonneg (nb / bs / assoc)).
    rewrite cache_new_closed by (unfold is_size_t in *; lia).
    rewrite !to_uint_small by lia.
    rewrite cache_new_masks_small by lia. cbn [mbind result_bind].
    destruct (Z.ltb_spec 0 (nb / bs / assoc)) as [Hpos|Hzero];
      [destruct (Z.ltb_spec INT_MAX assoc) as [Hbig|Hsmall]; [lia|]|];
      cbn [andb]; eauto.
Qed.

(** ** Geometry of a constructed cache *)

Example cache_new_256_16_2 :
  ∃ c, cache_new 4096 256 16 2 CACHE_REPLACEMENTPOLICY_LRU = Ok c
       ∧ num_lines c = 16 ∧ num_sets c = 8 ∧ block_offset_mask c = 15
       ∧ cache_index_mask c = 112 ∧ tag_mask c = 128 ∧ tag_shift c = 7.
Proof. eexists. split; [vm_compute; reflexivity|]. repeat split. Qed.


(** C9, as amended. For every cache built by [cache_new] from total bytes,
    block size and associativity that satisfy the construction
    preconditions, [num_lines = num_bytes / block_size],
    [num_sets = num_lines / associativity] and
    [num_lines = num_sets * associativity] exactly; 256 bytes in 16-byte
    lines with associativity 2 give 16 lines and 8 sets. A cache is built
    whenever the shifts and the loop counter of the constructor are
    defined. *)
Theorem cache_new_geometry (mem nb bs assoc pol : Z) :
  is_size_t nb → is_size_t bs → is_size_t assoc →
  valid_configuration nb bs assoc →
  (assoc ≤ INT_MAX → logbase2 bs + logbase2 (nb / bs / assoc) ≤ 8 →
   ∃ c, cache_new mem nb bs assoc pol = Ok c)
  ∧ ∀ c, cache_new mem nb bs assoc pol = Ok c →
      num_lines c = nb / bs
      ∧ num_sets c = num_lines c / assoc
      ∧ num_lines c = num_sets c * assoc
      ∧ (nb = 256 → bs = 16 → assoc = 2 →
         num_lines c = 16 ∧ num_sets c = 8).
Proof.
  intros Hnb Hbs Ha (_ & (k & Hk & Hpow) & Hpos & Hdiv). split.
  - intros Hmax Hsum.
    apply (cache_new_defined_iff mem nb bs assoc pol Hnb Hbs Ha).
    pose proof (Z.pow_pos_nonneg 2 k). repeat split; (done || lia).
  - intros c Hc.
    destruct (cache_new_Ok_inv _ _ _ _ _ _ Hnb Hbs Ha Hc)
      as (_ & _ & _ & m & _ & ->).
    cbn [num_lines num_sets]. split; [done|]. split; [done|]. split.
    + apply Z.div_exact in Hdiv; lia.
    + by intros -> -> ->.
Qed.

Lemma cache_new_geometry_witness :
  ∃ c, cache_new 4096 256 16 2 CACHE_REPLACEMENTPOLICY_LRU = Ok c
       ∧ num_lines c = 256 / 16
       ∧ num_sets c = num_lines c / 2
       ∧ num_lines c = num_sets c * 2
       ∧ (256 = 256 → 16 = 16 → 2 = 2 → num_lines c = 16 ∧ num_sets c = 8).
Proof.
  destruct (cache_new_geometry 4096 256 16 2 CACHE_REPLACEMENTPOLICY_LRU)
    as [Hbuilt Hgeometry].
  - unfold is_size_t. lia.
  - unfold is_size_t. lia.
  - unfold is_size_t. lia.
  - split; [exists 8; split; [lia | reflexivity]|].
    split; [exists 4; split; [lia | reflexivity]|].
    split; [lia | reflexivity].
  - destruct Hbuilt as [c Hc].
    + unfold INT_MAX. lia.
    + vm_compute. discriminate.
    + exists c. split; [exact Hc | exact (Hgeometry c Hc)].
Defined.

(** C9, as first stated, at its own example: 256 bytes in 16-byte lines with
    associativity 2 do not give 8 lines and 4 sets. *)
Lemma cache_new_256_16_2_not_8_lines :
  ¬ (∀ c, cache_new 4096 256 16 2 CACHE_REPLACEMENTPOLICY_LRU = Ok c →
          num_lines c = 8 ∧ num_sets c = 4).
Proof.
  intros H.
  destruct (H _ ltac:(vm_compute; reflexivity)) as [Hl _].
  vm_compute in Hl. discriminate Hl.
Qed.

(** ** No validation in the constructor *)

Lemma not_power_of_two_0 : ¬ is_power_of_two 0.
Proof.
  intros (k & Hk & E). pose proof (Z.pow_pos_nonneg 2 k). lia.
Qed.

Lemma not_power_of_two_100 : ¬ is_power_of_two 100.
Proof.
  intros (k & Hk & E).
  destruct (Z.le_gt_cases 7 k) as [Hge|Hlt].
  - pose proof (Z.pow_le_mono_r 2 7 k). change (2 ^ 7) with 128 in *. lia.
  - assert (k = 0 ∨ k = 1 ∨ k = 2 ∨ k = 3 ∨ k = 4 ∨ k = 5 ∨ k = 6) as Hcase
      by lia.
    destruct Hcase as [->|[->|[->|[->|[->|[->| ->]]]]]]; discriminate E.
Qed.

(** C2, as first stated, fails: a line count the associativity does not
    divide, a total size that is not a power of two and a total size of
    zero each yield a cache object, with the quotients rounded down. *)
Lemma cache_new_builds_invalid_configurations :
  (¬ valid_configuration 256 16 3
   ∧ ∃ c, cache_new 4096 256 16 3 0 = Ok c
          ∧ num_lines c = 16 ∧ num_sets c = 5)
  ∧ (¬ valid_configuration 100 16 2
     ∧ ∃ c, cache_new 4096 100 16 2 0 = Ok c
            ∧ num_lines c = 6 ∧ num_sets c = 3)
  ∧ (¬ valid_configuration 0 16 2
     ∧ ∃ c, cache_new 4096 0 16 2 0 = Ok c
            ∧ num_lines c = 0 ∧ num_sets c = 0).
Proof.
  split; [|split].
  - split; [intros (_ & _ & _ & H); vm_compute in H; discriminate H|].
    eexists. split; [vm_compute; reflexivity|]. by split.
  - split; [intros (H & _); by apply not_power_of_two_100|].
    eexists. split; [vm_compute; reflexivity|]. by split.
  - split; [intros (H & _); by apply not_power_of_two_0|].
    eexists. split; [vm_compute; reflexivity|]. by split.
Qed.

(** C2, as amended. [cache_new] checks none of its arguments and has no
    error result: for every non-zero block size and every associativity
    from [1] to [INT_MAX] for which its shifts are defined (at most eight
    offset and index bits together), powers of two or not, divisible or
    not, it returns a cache whose [num_lines] and [num_sets] are the integer
    quotients [num_bytes / block_size] and [num_lines / associativity]. *)
Theorem cache_new_no_validation (mem nb bs assoc pol : Z) :
  is_size_t nb → is_size_t bs → is_size_t assoc →
  0 < bs → 0 < assoc ≤ INT_MAX →
  logbase2 bs + logbase2 (nb / bs / assoc) ≤ 8 →
  ∃ c, cache_new mem nb bs assoc pol = Ok c
       ∧ num_lines c = nb / bs
       ∧ num_sets c = nb / bs / assoc
       ∧ line_size c = bs ∧ associativity c = assoc.
Proof.
  intros Hnb Hbs Ha Hbs' Ha' Hsum.
  destruct (proj2 (cache_new_defined_iff mem nb bs assoc pol Hnb Hbs Ha))
    as [c Hc]; [repeat split; (done || lia)|].
  exists c. split; [done|].
  by destruct (cache_new_Ok_inv _ _ _ _ _ _ Hnb Hbs Ha Hc)
    as (_ & _ & _ & m & _ & ->).
Qed.

Lemma cache_new_no_validation_witness :
  ∃ c, cache_new 4096 256 16 3 0 = Ok c
       ∧ num_lines c = 256 / 16
       ∧ num_sets c = 256 / 16 / 3
       ∧ line_size c = 16 ∧ associativity c = 3.
Proof.
  apply (cache_new_no_validation 4096 256 16 3 0).
  - unfold is_size_t. lia.
  - unfold is_size_t. lia.
  - unfold is_size_t. lia.
  - lia.
  - unfold INT_MAX. lia.
  - vm_compute. discriminate.
Defined.

(** A block size or an associativity of zero makes the division undefined. *)
Lemma cache_new_zero_divisor (mem nb bs assoc pol : Z) :
  bs = 0 ∨ assoc = 0 →
  cache_new mem nb bs assoc pol = Undefined DivisionByZero.
Proof.
  intros [-> | ->]; [done|]. unfold cache_new, udiv.
  by destruct (bs =? 0).
Qed.

(** ** State of a cache right after construction *)

Lemma fresh_lines_lookup_inv (mem ls n : Z) (i : nat) (l : cache_line_t) :
  fresh_lines mem ls n !! i = Some l →
  Z.of_nat i < n ∧ l = mk_line false false false 0 (mem + Z.of_nat i * ls).
Proof.
  unfold fresh_lines. rewrite list_lookup_fmap. intros H.
  destruct (seqZ 0 n !! i) as [x|] eqn:E; [|discriminate H].
  apply lookup_seqZ in E as [-> Hi]. injection H as <-.
  split; [done|]. do 2 f_equal.
Qed.

Lemma fresh_sets_lookup_inv (assoc n : Z) (k : nat) (s : cache_set_t) :
  fresh_sets assoc n !! k = Some s →
  Z.of_nat k < n ∧ s = mk_set (Z.of_nat k * assoc) (seqZ 0 assoc) 0.
Proof.
  unfold fresh_sets. rewrite list_lookup_fmap. intros H.
  destruct (seqZ 0 n !! k) as [x|] eqn:E; [|discriminate H].
  apply lookup_seqZ in E as [-> Hk]. injection H as <-.
  split; [done|]. do 2 f_equal.
Qed.

(** C10. Right after [cache_new] returns, the cache has the geometry of its
    arguments ([num_lines = num_bytes / block_size] lines of [block_size]
    bytes, [num_sets = num_lines / associativity] sets of [associativity]
    lines), and: every line exists and is invalid (with dirty and marked
    bits clear and tag [0]), so every line of every set is invalid; each
    set [k] exists, starts at line [k * associativity], has the [lru_list]
    [0, 1, ..., associativity - 1] and a marked count of [0]; both counters
    are [0]; and the block of line [i] starts at byte [i * line_size] of
    the one allocation, the blocks lying inside it and pairwise apart. It
    returns whenever the divisions, the shifts and the loop counter of the
    constructor are defined. *)
Theorem cache_new_initial_state (mem nb bs assoc pol : Z) :
  is_size_t nb → is_size_t bs → is_size_t assoc →
  (0 < bs → 0 < assoc ≤ INT_MAX →
   logbase2 bs + logbase2 (nb / bs / assoc) ≤ 8 →
   ∃ c, cache_new mem nb bs assoc pol = Ok c)
  ∧ ∀ c, cache_new mem nb bs assoc pol = Ok c →
      (num_lines c = nb / bs ∧ num_sets c = nb / bs / assoc
       ∧ line_size c = bs ∧ associativity c = assoc ∧ policies c = pol)
      ∧ (∀ i, 0 ≤ i < nb / bs →
           lines c !! Z.to_nat i
           = Some (mk_line false false false 0 (mem + i * bs)))
      ∧ (∀ k, 0 ≤ k < nb / bs / assoc →
           sets c !! Z.to_nat k = Some (mk_set (k * assoc) (seqZ 0 assoc) 0))
      ∧ (∀ i l, lines c !! i = Some l → is_valid l = false)
      ∧ (∀ k s, sets c !! k = Some s →
           lru_list s = seqZ 0 (associativity c)
           ∧ num_marked s = 0
           ∧ first_index s = Z.of_nat k * associativity c
           ∧ ∀ j, 0 ≤ j < associativity c →
               ∃ l, lines c !! Z.to_nat (first_index s + j) = Some l
                    ∧ is_valid l = false)
      ∧ access_count c = 0 ∧ miss_count c = 0
      ∧ length (lines c) = Z.to_nat (num_lines c)
      ∧ length (sets c) = Z.to_nat (num_sets c)
      ∧ memory c = mem
      ∧ (∀ i l, lines c !! i = Some l →
           block l = mem + Z.of_nat i * line_size c
           ∧ mem ≤ block l ∧ block l + line_size c ≤ mem + nb)
      ∧ (∀ i j li lj, i ≠ j →
           lines c !! i = Some li → lines c !! j = Some lj →
           block li + line_size c ≤ block lj
           ∨ block lj + line_size c ≤ block li).
Proof.
  intros Hnb Hbs Ha. split.
  { intros Hbs' Ha' Hsum.
    apply (cache_new_defined_iff mem nb bs assoc pol Hnb Hbs Ha).
    repeat split; (done || lia). }
  intros c Hc.
  destruct (cache_new_Ok_inv _ _ _ _ _ _ Hnb Hbs Ha Hc)
    as (Hbs' & Ha' & _ & m & _ & ->).
  unfold is_size_t in *.
  cbn [lines sets access_count miss_count num_lines num_sets memory
       associativity line_size policies].
  assert (Hnl : 0 ≤ nb / bs) by (apply Z.div_pos; lia).
  assert (Hmul : bs * (nb / bs) ≤ nb) by (apply Z.mul_div_le; lia).
  assert (Hns : assoc * (nb / bs / assoc) ≤ nb / bs)
    by (apply Z.mul_div_le; lia).
  split; [done|].
  split; [intros i Hi; by apply fresh_lines_lookup|].
  split; [intros k Hk; by apply fresh_sets_lookup|].
  split; [|split; [|repeat split]].
  - intros i l Hl. by apply fresh_lines_lookup_inv in Hl as [_ ->].
  - intros k s Hs. apply fresh_sets_lookup_inv in Hs as [Hk ->].
    cbn [lru_list num_marked first_index]. repeat split.
    intros j Hj. eexists. split; [apply fresh_lines_lookup; nia | done].
  - apply length_fresh_lines.
  - apply length_fresh_sets.
  - by apply fresh_lines_lookup_inv in H as [_ ->].
  - apply fresh_lines_lookup_inv in H as [_ ->]. cbn [block]. nia.
  - apply fresh_lines_lookup_inv in H as [Hi ->]. cbn [block]. nia.
  - intros i j li lj Hne Hi Hj.
    apply fresh_lines_lookup_inv in Hi as [_ ->].
    apply fresh_lines_lookup_inv in Hj as [_ ->]. cbn [block]. nia.
Qed.

Lemma cache_new_initial_state_witness :
  ∃ c, cache_new 4096 256 16 2 CACHE_REPLACEMENTPOLICY_LRU = Ok c
       ∧ (num_lines c = 256 / 16 ∧ num_sets c = 256 / 16 / 2
          ∧ line_size c = 16 ∧ associativity c = 2
          ∧ policies c = CACHE_REPLACEMENTPOLICY_LRU)
       ∧ lines c !! Z.to_nat 5
         = Some (mk_line false false false 0 (4096 + 5 * 16))
       ∧ sets c !! Z.to_nat 3 = Some (mk_set (3 * 2) (seqZ 0 2) 0)
       ∧ (∀ i l, lines c !! i = Some l → is_valid l = false)
       ∧ (∀ k s, sets c !! k = Some s → lru_list s = seqZ 0 (associativity c))
       ∧ (∀ i l, lines c !! i = Some l → block l = 4096 + Z.of_nat i * line_size c).
Proof.
  destruct (cache_new_initial_state 4096 256 16 2 CACHE_REPLACEMENTPOLICY_LRU)
    as [Hbuilt Hstate].
  - unfold is_size_t. lia.
  - unfold is_size_t. lia.
  - unfold is_size_t. lia.
  - destruct Hbuilt as [c Hc].
    + lia.
    + unfold INT_MAX. lia.
    + vm_compute. discriminate.
    + exists c. split; [exact Hc|].
      destruct (Hstate c Hc)
        as (Hg & Hl & Hk & Hv & Hs & _ & _ & _ & _ & _ & Hb & _).
      split; [exact Hg|].
      split; [exact (Hl 5 ltac:(split; [lia | reflexivity]))|].
      split; [exact (Hk 3 ltac:(split; [lia | reflexivity]))|].
      split; [exact Hv|]. split.
      * intros k s Hs'. exact (proj1 (Hs k s Hs')).
      * intros i l Hl'. exact (proj1 (Hb i l Hl')).
Defined.

(** ** The recency list *)

(** The scan stops at the first occurrence of [x]. *)
Lemma find_line_index_first (x : Z) (post : list Z) :
  ∀ (pre front : list Z) (n : nat),
    x ∉ pre → (length pre < n)%nat →
    find_line_index n (Z.of_nat (length front)) (front ++ pre ++ x :: post) x
    = Ok (Z.of_nat (length front + length pre)).
Proof.
  induction pre as [|y pre IH]; intros front n Hx Hn;
    (destruct n as [|n]; [cbn in Hn; lia|]); cbn [find_line_index].
  - erewrite aget_Some; last first.
    { rewrite Nat2Z.id. by apply list_lookup_middle. }
    cbn [mbind result_bind app]. rewrite Z.eqb_refl.
    by rewrite Nat.add_0_r.
  - erewrite aget_Some; last first.
    { rewrite Nat2Z.id. by apply list_lookup_middle. }
    cbn [mbind result_bind].
    apply not_elem_of_cons in Hx as [Hne Hx].
    destruct (Z.eqb_spec y x) as [->|_]; [done|].
    replace (Z.of_nat (length front) + 1)
      with (Z.of_nat (length (front ++ [y]))) by (rewrite length_app; cbn; lia).
    replace (front ++ (y :: pre) ++ x :: post)
      with ((front ++ [y]) ++ pre ++ x :: post) by (by rewrite <- app_assoc).
    rewrite IH by (cbn in Hn; done || lia).
    f_equal. rewrite length_app. cbn. lia.
Qed.

(** The shift loop moves every entry after position [length front] one
    place down; the last slot keeps its old content. *)
Lemma shift_loop_down :
  ∀ (post front : list Z) (y : Z),
    Z.of_nat (length front + length post) < 2 ^ 64 →
    ∃ z, for_loop (length post) (Z.of_nat (length front) + 1)
           (λ i lru, x ← aget lru i; aset lru (wrap64 (i - 1)) x)
           (front ++ y :: post)
         = Ok (front ++ post ++ [z]).
Proof.
  induction post as [|p post IH]; intros front y Hlen.
  - exists y. done.
  - cbn [for_loop length].
    erewrite aget_Some; last first.
    { replace (Z.to_nat (Z.of_nat (length front) + 1))
        with (length front + 1)%nat by lia.
      rewrite lookup_app_r by lia.
      by replace (length front + 1 - length front)%nat with 1%nat by lia. }
    cbn [mbind result_bind].
    assert (Hw : wrap64 (Z.of_nat (length front) + 1 - 1)
                 = Z.of_nat (length front)).
    { unfold wrap64. rewrite Z.mod_small; cbn [length] in Hlen; lia. }
    rewrite Hw, aset_lt by (rewrite Nat2Z.id, length_app; cbn [length]; lia).
    cbn [mbind result_bind]. rewrite Nat2Z.id.
    rewrite insert_app_r_alt, Nat.sub_diag by lia. cbn [list_insert insert].
    destruct (IH (front ++ [p]) p) as [z Hz].
    { rewrite length_app. cbn [length] in *. lia. }
    exists z. rewrite length_app in Hz. cbn [length] in Hz.
    replace (Z.of_nat (length front + 1) + 1)
      with (Z.of_nat (length front) + 1 + 1) in Hz by lia.
    rewrite <- !app_assoc in Hz. exact Hz.
Qed.

Example make_mru_middle :
  ∀ c, associativity c = 4 →
    cache_line_make_mru c (mk_set 0 [2; 0; 3; 1] 0) 0
    = Ok (mk_set 0 [2; 3; 1; 0] 0).
Proof. intros c H. unfold cache_line_make_mru. rewrite H. reflexivity. Qed.

(** A line index that is not in the list: the scan leaves [(size_t)-1], the
    shift loop starts at [0] and its first store goes to [lru_list[-1]]. *)
Example make_mru_absent :
  ∀ c, associativity c = 2 →
    cache_line_make_mru c (mk_set 0 [0; 1] 0) 5 = Undefined OutOfBounds.
Proof. intros c H. unfold cache_line_make_mru. rewrite H. reflexivity. Qed.

(** C7. For a set whose [lru_list] is a permutation of
    [0 .. associativity - 1] and a [line_index] occurring in it,
    [cache_line_make_mru] takes [line_index] out of its position, moves the
    later entries one place down in their order and stores [line_index] in
    the last position; the new [lru_list] is again a permutation of
    [0 .. associativity - 1] and ends in [line_index]. *)
Theorem cache_line_make_mru_spec (c : cache_t) (s : cache_set_t)
    (line_index : Z) :
  is_size_t (associativity c) →
  lru_list s ≡ₚ seqZ 0 (associativity c) →
  line_index ∈ lru_list s →
  ∃ pre post,
    lru_list s = pre ++ line_index :: post
    ∧ (line_index ∉ pre) ∧ (line_index ∉ post)
    ∧ cache_line_make_mru c s line_index
      = Ok (mk_set (first_index s) (pre ++ post ++ [line_index]) (num_marked s))
    ∧ pre ++ post ++ [line_index] ≡ₚ seqZ 0 (associativity c)
    ∧ last (pre ++ post ++ [line_index]) = Some line_index.
Proof.
  unfold is_size_t. intros Ha Hperm Hin.
  destruct (list_elem_of_split _ _ Hin) as (pre & post & Hsplit).
  exists pre, post.
  assert (Hnd : NoDup (pre ++ line_index :: post)).
  { rewrite <- Hsplit, Hperm. apply NoDup_seqZ. }
  assert (Hpre : line_index ∉ pre).
  { apply NoDup_app in Hnd as (_ & Hd & _). intros H.
    apply (Hd _ H). by left. }
  assert (Hpost : line_index ∉ post).
  { apply NoDup_app in Hnd as (_ & _ & Hd). by apply NoDup_cons in Hd as [? _]. }
  assert (Hlen : Z.to_nat (associativity c) = (length pre + S (length post))%nat).
  { apply Permutation_length in Hperm.
    rewrite Hsplit, length_app, length_seqZ in Hperm. cbn [length] in Hperm. lia. }
  split; [done|]. split; [done|]. split; [done|]. split; [|split].
  - unfold cache_line_make_mru. rewrite Hsplit.
    pose proof (find_line_index_first line_index post pre []
                  (Z.to_nat (associativity c)) Hpre ltac:(lia)) as Hfind.
    change (Z.of_nat (length (@nil Z))) with 0 in Hfind.
    cbn [length app Nat.add] in Hfind. rewrite Hfind.
    cbn [mbind result_bind].
    assert (Hw : wrap64 (Z.of_nat (length pre) + 1) = Z.of_nat (length pre) + 1).
    { unfold wrap64. rewrite Z.mod_small; lia. }
    rewrite Hw. unfold for_range.
    replace (Z.to_nat (associativity c - (Z.of_nat (length pre) + 1)))
      with (length post) by lia.
    destruct (shift_loop_down post pre line_index) as [z ->]; [lia|].
    cbn [mbind result_bind].
    assert (Hw' : wrap64 (associativity c - 1)
                  = Z.of_nat (length (pre ++ post))).
    { unfold wrap64. rewrite length_app, Z.mod_small; lia. }
    rewrite Hw', aset_lt
      by (rewrite Nat2Z.id, !length_app; cbn [length]; lia).
    cbn [mbind result_bind]. unfold set_lru_list. cbn [first_index num_marked].
    do 2 f_equal. rewrite Nat2Z.id, (app_assoc pre post [z]).
    rewrite insert_app_r_alt, Nat.sub_diag by lia. cbn [list_insert insert].
    by rewrite <- app_assoc.
  - rewrite <- Hperm, Hsplit.
    by rewrite (Permutation_app_comm post [line_index]).
  - rewrite app_assoc. apply last_snoc.
Qed.

Lemma cache_line_make_mru_spec_witness :
  ∃ pre post,
    [2; 0; 3; 1] = pre ++ 0 :: post
    ∧ (0 ∉ pre) ∧ (0 ∉ post)
    ∧ cache_line_make_mru (mk_cache 1 4 16 4 15 0 4 240 4 4 4096 [] [] 0 0)
        (mk_set 0 [2; 0; 3; 1] 0) 0
      = Ok (mk_set 0 (pre ++ post ++ [0]) 0)
    ∧ pre ++ post ++ [0] ≡ₚ seqZ 0 4
    ∧ last (pre ++ post ++ [0]) = Some 0.
Proof.
  apply (cache_line_make_mru_spec
           (mk_cache 1 4 16 4 15 0 4 240 4 4 4096 [] [] 0 0)
           (mk_set 0 [2; 0; 3; 1] 0) 0).
  - unfold is_size_t. cbn. lia.
  - cbn. change (seqZ 0 4) with [0; 1; 2; 3].
    apply (Permutation_trans (l' := [0; 2; 3; 1])).
    + apply perm_swap.
    + apply perm_skip.
      apply (Permutation_trans (l' := [2; 1; 3])).
      * apply perm_skip, perm_swap.
      * apply (Permutation_trans (l' := [1; 2; 3])); [apply perm_swap | done].
  - cbn. apply list_elem_of_In. cbn. tauto.
Defined.

(** ** The tag of an address *)

(** With the masks [cache_new] stores, the decoded tag is the field of
    [sizeof(uintptr_t) - tag_shift] bits above the offset and index bits:
    the width is counted in bytes of a pointer, not in bits. *)
Lemma decode_tag_field (mem nb bs assoc pol : Z) (c : cache_t) (address : Z) :
  is_size_t nb → is_size_t bs → is_size_t assoc →
  cache_new mem nb bs assoc pol = Ok c →
  tag_shift c = logbase2 bs + logbase2 (nb / bs / assoc)
  ∧ 0 ≤ tag_shift c ≤ 8
  ∧ decode_tag c address
    = Z.shiftr address (tag_shift c) mod 2 ^ (sizeof_uintptr_t - tag_shift c).
Proof.
  intros Hnb Hbs Ha Hc.
  destruct (proj1 (cache_new_defined_iff mem nb bs assoc pol Hnb Hbs Ha))
    as (Hbs' & Ha' & Hsum & _); [eauto|].
  destruct (cache_new_Ok_inv _ _ _ _ _ _ Hnb Hbs Ha Hc)
    as (_ & _ & _ & m & Hm & ->).
  pose proof (logbase2_nonneg bs) as Hob.
  pose proof (logbase2_nonneg (nb / bs / assoc)) as Hib.
  rewrite !to_uint_small in Hm by lia.
  rewrite cache_new_masks_small in Hm by lia. injection Hm as <-.
  unfold decode_tag, sizeof_uintptr_t. cbn [tag_shift tag_mask fst snd].
  set (ts := logbase2 bs + logbase2 (nb / bs / assoc)) in *.
  split; [done|]. split; [lia|].
  assert (Hmask : 2 ^ 8 - 2 ^ ts = Z.shiftl (Z.ones (8 - ts)) ts).
  { rewrite Z.shiftl_mul_pow2, Z.ones_equiv by lia.
    replace (2 ^ 8) with (2 ^ (8 - ts) * 2 ^ ts); [lia|].
    rewrite <- Z.pow_add_r by lia. f_equal. lia. }
  rewrite Hmask, Z.shiftr_land, Z.shiftr_shiftl_l, Z.sub_diag by lia.
  rewrite Z.shiftl_0_r. apply Z.land_ones. lia.
Qed.

(** C1 at a failing address. In the cache of 256 bytes with 16-byte lines
    and associativity 2 the tag mask is [0x80]: address [0x100] decodes to
    tag [0], the tag of address [0], while its bits above the seven offset
    and index bits are [2]. *)
Lemma decode_tag_drops_high_bits :
  ∃ c, cache_new 4096 256 16 2 CACHE_REPLACEMENTPOLICY_LRU = Ok c
       ∧ tag_shift c = 7 ∧ tag_mask c = 128
       ∧ decode_tag c 256 = 0
       ∧ decode_tag c 0 = 0
       ∧ address_high_bits (logbase2 16) (logbase2 8) 256 = 2.
Proof. eexists. split; [vm_compute; reflexivity|]. by repeat split. Qed.

(** ** The access functions *)

Lemma cache_read_unchanged (h : heap) (c : cache_t) (address : Z) (g : func_t) :
  cache_read h c address g = (0, (h, c)).
Proof. reflexivity. Qed.

Lemma cache_write_unchanged (h : heap) (c : cache_t) (address value : Z)
    (g : func_t) :
  cache_write h c address value g = (h, c).
Proof. reflexivity. Qed.

(** C3 at a failing input. On the freshly built cache a [cache_read] and a
    [cache_write] each leave [access_count] at [0]. *)
Lemma cache_access_leaves_access_count :
  ∃ c, cache_new 4096 256 16 2 CACHE_REPLACEMENTPOLICY_LRU = Ok c
       ∧ cache_access_count c = 0
       ∧ ∀ (h : heap) (g : func_t),
           cache_access_count (cache_read h c 0 g).2.2 = 0
           ∧ cache_access_count (cache_write h c 0 7 g).2 = 0.
Proof. eexists. split; [vm_compute; reflexivity|]. by repeat split. Qed.

(** C4 at a failing input. After [cache_write] of [7] to address [0], the
    [cache_read] of address [0] returns [0]. *)
Lemma cache_write_then_read_returns_zero :
  ∃ c, cache_new 4096 256 16 2 CACHE_REPLACEMENTPOLICY_LRU = Ok c
       ∧ ∀ (h : heap) (g : func_t),
           (cache_read (cache_write h c 0 7 g).1 (cache_write h c 0 7 g).2
              0 g).1 = 0.
Proof. eexists. split; [vm_compute; reflexivity|]. done. Qed.

(** C5 at a failing input. The first read of a fresh cache is a miss, yet
    [cache_read] leaves every line invalid; and [cache_set_add], were it
    called, would dereference the [NULL] that [find_available_cache_line]
    returns. *)
Lemma cache_read_miss_installs_nothing :
  ∃ c, cache_new 4096 256 16 2 CACHE_REPLACEMENTPOLICY_LRU = Ok c
       ∧ ∀ (h : heap) (g : func_t),
           (cache_set_find_matching_line c 0 (decode_tag c 0)).1 = None
           ∧ (cache_read h c 0 g).2.2 = c
           ∧ (∀ i l, lines (cache_read h c 0 g).2.2 !! i = Some l →
                     is_valid l = false)
           ∧ cache_set_add h c 0 0 (decode_tag c 0) g
             = Undefined NullDereference.
Proof.
  eexists. split; [vm_compute; reflexivity|]. intros h g.
  split; [done|]. split; [done|]. split; [|done].
  intros i l Hl. cbn [cache_read snd] in Hl.
  repeat (destruct i as [|i]; [by injection Hl as <-|]). done.
Qed.

(** C8 at a failing input. Under RANDOMIZED_MARKING, on a fresh cache,
    [choose_unmarked_cache_line] returns [0] and marks nothing: the cache
    is the one it was given, with no marked line and marked counts [0]. *)
Lemma choose_unmarked_cache_line_marks_nothing :
  ∃ c, cache_new 4096 256 16 2 CACHE_REPLACEMENTPOLICY_RANDOMIZED_MARKING
       = Ok c
       ∧ ∀ g : func_t,
           (choose_unmarked_cache_line c 0 g).1 = 0
           ∧ (choose_unmarked_cache_line c 0 g).2 = c
           ∧ (∀ i l, lines (choose_unmarked_cache_line c 0 g).2 !! i = Some l →
                     is_marked l = false)
           ∧ (∀ k s, sets (choose_unmarked_cache_line c 0 g).2 !! k = Some s →
                     num_marked s = 0).
Proof.
  eexists. split; [vm_compute; reflexivity|]. intros g.
  split; [done|]. split; [done|]. split.
  - intros i l Hl. cbn [choose_unmarked_cache_line snd] in Hl.
    repeat (destruct i as [|i]; [by injection Hl as <-|]). done.
  - intros k s Hs. cbn [choose_unmarked_cache_line snd] in Hs.
    repeat (destruct k as [|k]; [by injection Hs as <-|]). done.
Qed.

Lemma choose_unmarked_cache_line_unchanged (c : cache_t) (set_index : Z)
    (g : func_t) :
  choose_unmarked_cache_line c set_index g = (0, c).
Proof. reflexivity. Qed.

(** ** Installing a block *)

(** [cache_set_add] never gets a line to set up. *)
Lemma cache_set_add_undefined (h : heap) (c : cache_t) (set_index : Z)
    (address tag : Z) (g : func_t) :
  cache_set_add h c set_index address tag g = Undefined NullDereference.
Proof. reflexivity. Qed.



Lemma memcpy_overlap (h : heap) (dst src n : Z) :
  0 < n → src < dst + n → dst < src + n →
  memcpy h dst src n = Undefined OverlappingCopy.
Proof.
  intros Hn Hs Hd. unfold memcpy.
  by destruct (Z.ltb_spec 0 n), (Z.ltb_spec src (dst + n)),
    (Z.ltb_spec dst (src + n)); (done || lia).
Qed.




(** The set-up code of [cache_set_add] asked to fill a line from a block
    that overlaps the line's own block (an address inside the cache's
    storage) calls [memcpy] on overlapping ranges. *)
Theorem cache_set_add_setup_overlap (h : heap) (c : cache_t) (line : Z)
    (address tag : Z) (l : cache_line_t) :
  lines c !! Z.to_nat line = Some l →
  0 < line_size c →
  Z.land address (not64 (block_offset_mask c)) < block l + line_size c →
  block l < Z.land address (not64 (block_offset_mask c)) + line_size c →
  cache_set_add_setup h c line address tag = Undefined OverlappingCopy.
Proof.
  intros Hl Hn Hs Hd. unfold cache_set_add_setup.
  rewrite (aget_Some _ _ _ Hl). cbn [mbind result_bind].
  rewrite aset_lt by (by eapply lookup_lt_Some). cbn [mbind result_bind].
  cbn [set_is_valid set_tag block].
  by rewrite memcpy_overlap.
Qed.

Lemma cache_set_add_setup_overlap_witness :
  cache_set_add_setup (λ a, a mod 256)
    (mk_cache 1 1 16 1 15 0 4 240 4 5 4096
       [mk_line true true false 9 4096] [mk_set 0 [0] 0] 3 1)
    0 4100 1
  = Undefined OverlappingCopy.
Proof.
  apply (cache_set_add_setup_overlap (λ a, a mod 256)
           (mk_cache 1 1 16 1 15 0 4 240 4 5 4096
              [mk_line true true false 9 4096] [mk_set 0 [0] 0] 3 1)
           0 4100 1 (mk_line true true false 9 4096) eq_refl).
  - cbn. lia.
  - vm_compute. reflexivity.
  - vm_compute. reflexivity.
Defined.

Lemma decode_tag_field_witness :
  ∃ c, cache_new 4096 256 16 2 CACHE_REPLACEMENTPOLICY_LRU = Ok c
       ∧ tag_shift c = logbase2 16 + logbase2 (256 / 16 / 2)
       ∧ 0 ≤ tag_shift c ≤ 8
       ∧ decode_tag c 448
         = Z.shiftr 448 (tag_shift c) mod 2 ^ (sizeof_uintptr_t - tag_shift c).
Proof.
  eexists. split; [vm_compute; reflexivity|].
  apply (decode_tag_field 4096 256 16 2 CACHE_REPLACEMENTPOLICY_LRU).
  - unfold is_size_t. lia.
  - unfold is_size_t. lia.
  - unfold is_size_t. lia.
  - vm_compute. reflexivity.
Defined.

Lemma cache_new_zero_divisor_witness :
  cache_new 4096 256 0 2 0 = Undefined DivisionByZero.
Proof. apply (cache_new_zero_divisor 4096 256 0 2 0). left. reflexivity. Defined.

(** ** Further properties of the constructor and the recency list *)

(** [logbase2] returns the position of the highest set bit: for a positive
    value, [2 ^ logbase2 value <= value < 2 ^ (logbase2 value + 1)]. *)
Theorem logbase2_floor (value : Z) :
  0 < value →
  2 ^ logbase2 value ≤ value < 2 ^ (logbase2 value + 1).
Proof.
  intros H. rewrite logbase2_log2.
  pose proof (Z.log2_spec value H). lia.
Qed.

Lemma logbase2_floor_witness : 2 ^ logbase2 100 ≤ 100 < 2 ^ (logbase2 100 + 1).
Proof. apply (logbase2_floor 100). lia. Defined.



(** A cache of 1 MiB in 64-byte lines, 4-way: [tag_shift] is 18 and the
    width passed to [maskbits] is negative. *)
Example cache_new_1MiB_undefined :
  cache_new 4096 1048576 64 4 0 = Undefined ShiftOutOfRange.
Proof. vm_compute. reflexivity. Qed.

(** The scan over a list without [x] ends with [(size_t)-1]. *)
Lemma find_line_index_absent (x : Z) :
  ∀ (n : nat) (rest front : list Z),
    x ∉ rest → (n ≤ length rest)%nat →
    find_line_index n (Z.of_nat (length front)) (front ++ rest) x = Ok SIZE_MAX.
Proof.
  induction n as [|n IH]; intros rest front Hx Hn; [done|].
  destruct rest as [|y rest]; [cbn in Hn; lia|].
  cbn [find_line_index].
  erewrite aget_Some; last first.
  { rewrite Nat2Z.id. by apply list_lookup_middle. }
  cbn [mbind result_bind].
  apply not_elem_of_cons in Hx as [Hne Hx].
  destruct (Z.eqb_spec y x) as [->|_]; [done|].
  replace (Z.of_nat (length front) + 1)
    with (Z.of_nat (length (front ++ [y]))) by (rewrite length_app; cbn; lia).
  replace (front ++ y :: rest) with ((front ++ [y]) ++ rest)
    by (by rewrite <- app_assoc).
  apply IH; [done | cbn in Hn; lia].
Qed.

(** [cache_line_make_mru] on a line index that is not in the list: the
    index found stays [(size_t)-1], the shift loop starts at [0] and its
    first store goes to [lru_list[-1]], outside the array. *)
Theorem cache_line_make_mru_absent (c : cache_t) (s : cache_set_t)
    (line_index : Z) :
  is_size_t (associativity c) → 0 < associativity c →
  length (lru_list s) = Z.to_nat (associativity c) →
  line_index ∉ lru_list s →
  cache_line_make_mru c s line_index = Undefined OutOfBounds.
Proof.
  unfold is_size_t. intros Ha Hpos Hlen Hx. unfold cache_line_make_mru.
  pose proof (find_line_index_absent line_index (Z.to_nat (associativity c))
                (lru_list s) [] Hx ltac:(lia)) as Hfind.
  change (Z.of_nat (length (@nil Z))) with 0 in Hfind.
  cbn [app] in Hfind. rewrite Hfind. cbn [mbind result_bind].
  change (wrap64 (SIZE_MAX + 1)) with 0. unfold for_range.
  replace (Z.to_nat (associativity c - 0))
    with (S (Z.to_nat (associativity c - 1))) by lia.
  cbn [for_loop].
  destruct (lru_list s) as [|y rest] eqn:Hlru; [cbn in Hlen; lia|].
  change (aget (y :: rest) 0) with (Ok y). cbn [mbind result_bind].
  change (wrap64 (0 - 1)) with SIZE_MAX. unfold aset.
  destruct (Nat.ltb_spec (Z.to_nat SIZE_MAX) (length (y :: rest))) as [Hlt|_];
    [|done].
  exfalso. rewrite Hlen in Hlt. unfold SIZE_MAX in Hlt. lia.
Qed.

Lemma cache_line_make_mru_absent_witness :
  cache_line_make_mru (mk_cache 1 2 16 2 15 0 4 224 5 4 4096 [] [] 0 0)
    (mk_set 0 [0; 1] 0) 5
  = Undefined OutOfBounds.
Proof.
  apply (cache_line_make_mru_absent
           (mk_cache 1 2 16 2 15 0 4 224 5 4 4096 [] [] 0 0)
           (mk_set 0 [0; 1] 0) 5).
  - unfold is_size_t. cbn. lia.
  - cbn. lia.
  - reflexivity.
  - cbn. intros H. apply list_elem_of_In in H. cbn in H.
    destruct H as [H|[H|[]]]; discriminate H.
Defined.

(** ** The recency list as an order of last use *)

Lemma cache_line_make_mru_split (c : cache_t) (s : cache_set_t)
    (line_index : Z) (pre post : list Z) :
  is_size_t (associativity c) →
  length (lru_list s) = Z.to_nat (associativity c) →
  lru_list s = pre ++ line_index :: post →
  line_index ∉ pre →
  cache_line_make_mru c s line_index
  = Ok (mk_set (first_index s) (pre ++ post ++ [line_index]) (num_marked s)).
Proof.
  unfold is_size_t. intros Ha Hlen Hsplit Hpre.
  rewrite Hsplit, length_app in Hlen. cbn [length] in Hlen.
  unfold cache_line_make_mru. rewrite Hsplit.
  pose proof (find_line_index_first line_index post pre []
                (Z.to_nat (associativity c)) Hpre ltac:(lia)) as Hfind.
  change (Z.of_nat (length (@nil Z))) with 0 in Hfind.
  cbn [length app Nat.add] in Hfind. rewrite Hfind. cbn [mbind result_bind].
  assert (Hw : wrap64 (Z.of_nat (length pre) + 1) = Z.of_nat (length pre) + 1).
  { unfold wrap64. rewrite Z.mod_small; lia. }
  rewrite Hw. unfold for_range.
  replace (Z.to_nat (associativity c - (Z.of_nat (length pre) + 1)))
    with (length post) by lia.
  destruct (shift_loop_down post pre line_index) as [z ->]; [lia|].
  cbn [mbind result_bind].
  assert (Hw' : wrap64 (associativity c - 1) = Z.of_nat (length (pre ++ post))).
  { unfold wrap64. rewrite length_app, Z.mod_small; lia. }
  rewrite Hw', aset_lt by (rewrite Nat2Z.id, !length_app; cbn [length]; lia).
  cbn [mbind result_bind]. unfold set_lru_list. do 2 f_equal.
  rewrite Nat2Z.id, (app_assoc pre post [z]).
  rewrite insert_app_r_alt, Nat.sub_diag by lia. cbn [list_insert insert].
  by rewrite <- app_assoc.
Qed.

(** On any list of [associativity] entries, duplicates or not,
    [cache_line_make_mru] takes out the first occurrence of [line_index]
    and appends [line_index]; the other fields of the set are kept. *)
Theorem cache_line_make_mru_first_occurrence (c : cache_t) (s : cache_set_t)
    (line_index : Z) (pre post : list Z) :
  is_size_t (associativity c) →
  length (lru_list s) = Z.to_nat (associativity c) →
  lru_list s = pre ++ line_index :: post →
  line_index ∉ pre →
  cache_line_make_mru c s line_index
  = Ok (mk_set (first_index s) (pre ++ post ++ [line_index]) (num_marked s)).
Proof. apply cache_line_make_mru_split. Qed.

Lemma cache_line_make_mru_first_occurrence_witness :
  cache_line_make_mru (mk_cache 1 4 16 4 15 0 4 192 6 4 4096 [] [] 0 0)
    (mk_set 8 [3; 1; 3; 1] 2) 1
  = Ok (mk_set 8 ([3] ++ [3; 1] ++ [1]) 2).
Proof.
  apply (cache_line_make_mru_first_occurrence
           (mk_cache 1 4 16 4 15 0 4 192 6 4 4096 [] [] 0 0)
           (mk_set 8 [3; 1; 3; 1] 2) 1 [3] [3; 1]).
  - unfold is_size_t. cbn. lia.
  - reflexivity.
  - reflexivity.
  - intros H. apply list_elem_of_In in H. cbn in H.
    destruct H as [H|[]]. discriminate H.
Defined.

Lemma filter_ne_not_elem_of (x : Z) (l : list Z) :
  x ∉ l → filter (λ y, y ≠ x) l = l.
Proof.
  induction l as [|y l IH]; intros Hx; [done|].
  apply not_elem_of_cons in Hx as [Hne Hx].
  rewrite filter_cons_True by done. by rewrite IH.
Qed.

(** In a list without duplicates the effect is: delete [x], append [x]. *)
Lemma cache_line_make_mru_NoDup (c : cache_t) (s : cache_set_t) (x : Z) :
  is_size_t (associativity c) →
  length (lru_list s) = Z.to_nat (associativity c) →
  NoDup (lru_list s) → x ∈ lru_list s →
  cache_line_make_mru c s x
  = Ok (mk_set (first_index s) (filter (λ y, y ≠ x) (lru_list s) ++ [x])
          (num_marked s))
  ∧ filter (λ y, y ≠ x) (lru_list s) ++ [x] ≡ₚ lru_list s.
Proof.
  intros Ha Hlen Hnd Hin.
  destruct (list_elem_of_split _ _ Hin) as (pre & post & Hsplit).
  rewrite Hsplit in Hnd.
  assert (Hpre : x ∉ pre).
  { apply NoDup_app in Hnd as (_ & Hd & _). intros H. apply (Hd _ H). by left. }
  assert (Hpost : x ∉ post).
  { apply NoDup_app in Hnd as (_ & _ & Hd). by apply NoDup_cons in Hd as [? _]. }
  assert (Hfilter : filter (λ y, y ≠ x) (lru_list s) = pre ++ post).
  { rewrite Hsplit, filter_app, filter_cons_False by (intros H; by apply H).
    by rewrite !filter_ne_not_elem_of. }
  rewrite Hfilter. split.
  - rewrite (cache_line_make_mru_split c s x pre post) by done.
    by rewrite <- app_assoc.
  - rewrite Hsplit, <- app_assoc.
    by rewrite (Permutation_app_comm post [x]).
Qed.

Lemma filter_not_elem_of_nil (l : list Z) : filter (λ y, y ∉ @nil Z) l = l.
Proof.
  induction l as [|y l IH]; [done|].
  rewrite filter_cons_True by apply not_elem_of_nil. by rewrite IH.
Qed.

Lemma filter_not_elem_of_cons (x : Z) (uses l : list Z) :
  filter (λ y, y ∉ uses) (filter (λ y, y ≠ x) l)
  = filter (λ y, y ∉ x :: uses) l.
Proof.
  rewrite list_filter_filter. apply list_filter_iff.
  intros y. rewrite not_elem_of_cons. tauto.
Qed.

Lemma make_mru_all_order (c : cache_t) (uses : list Z) :
  is_size_t (associativity c) →
  ∀ s : cache_set_t,
    length (lru_list s) = Z.to_nat (associativity c) →
    NoDup (lru_list s) →
    (∀ x, x ∈ uses → x ∈ lru_list s) →
    make_mru_all c s uses
    = Ok (mk_set (first_index s)
            (filter (λ y, y ∉ uses) (lru_list s) ++ last_use_order uses)
            (num_marked s)).
Proof.
  intros Ha. induction uses as [|x uses IH]; intros s Hlen Hnd Hin.
  - cbn [make_mru_all last_use_order].
    rewrite filter_not_elem_of_nil, app_nil_r. by destruct s.
  - cbn [make_mru_all].
    destruct (cache_line_make_mru_NoDup c s x Ha Hlen Hnd) as [-> Hperm];
      [apply Hin; by left|].
    cbn [mbind result_bind]. rewrite IH; cbn [lru_list first_index num_marked].
    + do 2 f_equal. rewrite filter_app, filter_not_elem_of_cons, <- app_assoc.
      f_equal. cbn [last_use_order].
      destruct (decide (x ∈ uses)) as [Hx|Hx].
      * by rewrite filter_cons_False by (intros H; by apply H).
      * by rewrite filter_cons_True by done.
    + by rewrite Hperm.
    + by rewrite Hperm.
    + intros y Hy. rewrite Hperm. apply Hin. by right.
Qed.

(** After line indices are made most recently used one after the other,
    the recency list holds first the lines never used, in their old order,
    then the used lines in the order of their last use. *)
Theorem make_mru_all_last_use_order (c : cache_t) (s : cache_set_t)
    (uses : list Z) :
  is_size_t (associativity c) →
  lru_list s ≡ₚ seqZ 0 (associativity c) →
  (∀ x, x ∈ uses → 0 ≤ x < associativity c) →
  make_mru_all c s uses
  = Ok (mk_set (first_index s)
          (filter (λ y, y ∉ uses) (lru_list s) ++ last_use_order uses)
          (num_marked s)).
Proof.
  intros Ha Hperm Hin. apply make_mru_all_order; [done| | |].
  - rewrite Hperm. apply length_seqZ.
  - rewrite Hperm. apply NoDup_seqZ.
  - intros x Hx. rewrite Hperm. apply elem_of_seqZ. specialize (Hin x Hx). lia.
Qed.

Lemma make_mru_all_last_use_order_witness :
  make_mru_all (mk_cache 1 4 16 4 15 0 4 192 6 4 4096 [] [] 0 0)
    (mk_set 0 [0; 1; 2; 3] 0) [2; 0; 2]
  = Ok (mk_set 0 (filter (λ y, y ∉ [2; 0; 2]) [0; 1; 2; 3]
                  ++ last_use_order [2; 0; 2]) 0).
Proof.
  apply (make_mru_all_last_use_order
           (mk_cache 1 4 16 4 15 0 4 192 6 4 4096 [] [] 0 0)
           (mk_set 0 [0; 1; 2; 3] 0) [2; 0; 2]).
  - unfold is_size_t. cbn. lia.
  - reflexivity.
  - intros x Hx. apply list_elem_of_In in Hx. cbn in Hx. cbn. lia.
Defined.

Example make_mru_all_2_0_2 :
  make_mru_all (mk_cache 1 4 16 4 15 0 4 192 6 4 4096 [] [] 0 0)
    (mk_set 0 [0; 1; 2; 3] 0) [2; 0; 2]
  = Ok (mk_set 0 [1; 3; 0; 2] 0).
Proof. vm_compute. reflexivity. Qed.

(** ** [cache_set_init] on an arbitrary line array *)

(** The first [n] rounds of the loop of [cache_set_init], all inside the
    array. *)
Lemma cache_set_init_loop (assoc fi : Z) (L : list cache_line_t) (n : nat) :
  0 ≤ fi → fi + Z.of_nat n ≤ Z.of_nat (length L) → fi + Z.of_nat n ≤ 2 ^ 64 →
  Z.of_nat n ≤ assoc →
  ∃ ls,
    for_loop n 0
      (λ i '(lru, lines),
         l ← aget lines (wrap64 (fi + i));
         lines ← aset lines (wrap64 (fi + i)) (set_is_valid false l);
         lru ← aset lru i i;
         Ok (lru, lines))
      (replicate (Z.to_nat assoc) 0, L)
    = Ok (seqZ 0 (Z.of_nat n)
            ++ replicate (Z.to_nat (assoc - Z.of_nat n)) 0, ls)
    ∧ length ls = length L
    ∧ ∀ i l, L !! i = Some l →
        ls !! i
        = Some (if decide (fi ≤ Z.of_nat i < fi + Z.of_nat n)
                then set_is_valid false l else l).
Proof.
  intros Hfi Hlen Hwrap Hn.
  set (P := λ (j : Z) (t : list Z * list cache_line_t),
    t.1 = seqZ 0 j ++ replicate (Z.to_nat (assoc - j)) 0
    ∧ length t.2 = length L
    ∧ ∀ i l, L !! i = Some l →
        t.2 !! i
        = Some (if decide (fi ≤ Z.of_nat i < fi + j)
                then set_is_valid false l else l)).
  match goal with |- context [for_loop n 0 ?b _] => set (body := b) end.
  destruct (for_loop_inv P body n 0 (replicate (Z.to_nat assoc) 0, L))
    as ([lru ls] & Hrun & Hlru & Hl & Hls).
  - unfold P. cbn [fst snd]. split; [by rewrite Z.sub_0_r|]. split; [done|].
    intros i l Hi. by destruct (decide (fi ≤ Z.of_nat i < fi + 0)); [lia|].
  - intros j [lru ls] Hj (Hlru & Hl & Hls). cbn [fst snd] in *. subst lru.
    unfold body, wrap64. rewrite (Z.mod_small (fi + j)) by lia.
    destruct (lookup_lt_is_Some_2 L (Z.to_nat (fi + j)) ltac:(lia)) as [l0 Hl0].
    pose proof (Hls _ _ Hl0) as Hcur.
    destruct (decide (fi ≤ Z.of_nat (Z.to_nat (fi + j)) < fi + j)); [lia|].
    rewrite (aget_Some _ _ _ Hcur). cbn [mbind result_bind].
    rewrite (aset_lt ls) by lia. cbn [mbind result_bind].
    assert (Hlen' : length (seqZ 0 j) = Z.to_nat j) by apply length_seqZ.
    rewrite (replicate_pred 0 assoc j) by lia.
    rewrite aset_lt by (rewrite length_app; cbn [length]; lia).
    cbn [mbind result_bind]. eexists. split; [reflexivity|].
    unfold P. cbn [fst snd]. split; [|split].
    + rewrite <- Hlen', insert_app_r_alt, Nat.sub_diag by lia.
      cbn [list_insert insert].
      by rewrite seqZ_snoc, <- app_assoc by lia.
    + by rewrite length_insert.
    + intros i l Hi.
      destruct (decide (i = Z.to_nat (fi + j))) as [->|Hne].
      * rewrite list_lookup_insert_eq by lia.
        assert (l = l0) as -> by congruence.
        by destruct (decide (fi ≤ Z.of_nat (Z.to_nat (fi + j)) < fi + (j + 1)));
          [|lia].
      * rewrite list_lookup_insert_ne by done. rewrite (Hls _ _ Hi).
        destruct (decide (fi ≤ Z.of_nat i < fi + j)),
                 (decide (fi ≤ Z.of_nat i < fi + (j + 1))); (done || lia).
  - exists ls. cbn [fst snd] in *. rewrite Z.add_0_l in *. subst lru.
    split; [exact Hrun|]. split; [done|]. exact Hls.
Qed.

Lemma cache_set_init_defined (assoc : Z) (L : list cache_line_t) (fi : Z) :
  0 ≤ assoc ≤ INT_MAX → 0 ≤ fi →
  fi + assoc ≤ Z.of_nat (length L) → fi + assoc ≤ 2 ^ 64 →
  ∃ L',
    cache_set_init assoc L fi = Ok (mk_set fi (seqZ 0 assoc) 0, L')
    ∧ length L' = length L
    ∧ ∀ i l, L !! i = Some l →
        L' !! i
        = Some (if decide (fi ≤ Z.of_nat i < fi + assoc)
                then set_is_valid false l else l).
Proof.
  intros [Ha Hmax] Hfi Hlen Hwrap. unfold cache_set_init, for_range.
  destruct (Z.leb_spec assoc INT_MAX); [|lia]. rewrite Z.sub_0_r.
  destruct (cache_set_init_loop assoc fi L (Z.to_nat assoc))
    as (ls & -> & Hl & Hls); [lia..|].
  rewrite Z2Nat.id, Z.sub_diag, app_nil_r in * by lia.
  cbn [mbind result_bind fst snd]. eauto.
Qed.

(** [cache_set_init] on any line array that holds lines
    [first_index .. first_index + associativity - 1]: the set gets the
    identity recency list and a marked count of [0]; exactly those lines
    have their valid bit cleared, keeping tag, dirty bit, marked bit and
    block; every other line is left as it was. *)
Theorem cache_set_init_spec (assoc : Z) (L : list cache_line_t) (fi : Z) :
  0 ≤ assoc ≤ INT_MAX → 0 ≤ fi →
  fi + assoc ≤ Z.of_nat (length L) → fi + assoc ≤ 2 ^ 64 →
  ∃ L',
    cache_set_init assoc L fi = Ok (mk_set fi (seqZ 0 assoc) 0, L')
    ∧ length L' = length L
    ∧ ∀ i l, L !! i = Some l →
        L' !! i
        = Some (if decide (fi ≤ Z.of_nat i < fi + assoc)
                then mk_line false (is_dirty l) (is_marked l) (tag l) (block l)
                else l).
Proof. apply cache_set_init_defined. Qed.

Lemma cache_set_init_spec_witness :
  ∃ L',
    cache_set_init 2
      [mk_line true true false 7 4096; mk_line true false true 3 4112;
       mk_line false false false 0 4128; mk_line true false false 5 4144] 1
    = Ok (mk_set 1 (seqZ 0 2) 0, L')
    ∧ length L' = 4%nat
    ∧ ∀ i l,
        [mk_line true true false 7 4096; mk_line true false true 3 4112;
         mk_line false false false 0 4128; mk_line true false false 5 4144]
          !! i = Some l →
        L' !! i
        = Some (if decide (1 ≤ Z.of_nat i < 1 + 2)
                then mk_line false (is_dirty l) (is_marked l) (tag l) (block l)
                else l).
Proof.
  apply (cache_set_init_spec 2
           [mk_line true true false 7 4096; mk_line true false true 3 4112;
            mk_line false false false 0 4128; mk_line true false false 5 4144]
           1).
  - unfold INT_MAX. lia.
  - lia.
  - cbn. lia.
  - lia.
Defined.

Lemma for_loop_app {St} (body : Z → St → result St) :
  ∀ (n m : nat) (i : Z) (s : St),
    for_loop (n + m) i body s
    = s' ← for_loop n i body s; for_loop m (i + Z.of_nat n) body s'.
Proof.
  induction n as [|n IH]; intros m i s.
  - cbn [for_loop Nat.add mbind result_bind]. f_equal. lia.
  - cbn [for_loop Nat.add]. destruct (body i s) as [t|u]; [|done].
    cbn [mbind result_bind]. rewrite IH.
    destruct (for_loop n (i + 1) body t); [|done]. cbn [mbind result_bind].
    f_equal. lia.
Qed.

Lemma aget_None {A} (a : list A) (i : Z) :
  (length a ≤ Z.to_nat i)%nat → aget a i = Undefined OutOfBounds.
Proof. intros H. unfold aget. by rewrite lookup_ge_None_2. Qed.

(** [cache_set_init] asked for lines beyond the end of the line array
    reads past the array. *)
Theorem cache_set_init_out_of_bounds (assoc : Z) (L : list cache_line_t)
    (fi : Z) :
  0 < assoc ≤ INT_MAX → 0 ≤ fi → fi + assoc ≤ 2 ^ 64 →
  Z.of_nat (length L) < fi + assoc →
  cache_set_init assoc L fi = Undefined OutOfBounds.
Proof.
  intros [Ha Hmax] Hfi Hwrap Hshort. unfold cache_set_init, for_range.
  destruct (Z.leb_spec assoc INT_MAX); [|lia]. rewrite Z.sub_0_r.
  set (n1 := Z.to_nat (Z.of_nat (length L) - fi)).
  replace (Z.to_nat assoc) with (n1 + S (Z.to_nat assoc - n1 - 1))%nat at 1
    by lia.
  rewrite for_loop_app.
  assert (Hprefix : ∃ lru ls,
    for_loop n1 0
      (λ i '(lru, lines),
         l ← aget lines (wrap64 (fi + i));
         lines ← aset lines (wrap64 (fi + i)) (set_is_valid false l);
         lru ← aset lru i i;
         Ok (lru, lines))
      (replicate (Z.to_nat assoc) 0, L) = Ok (lru, ls)
    ∧ length ls = length L).
  { destruct (Z.le_gt_cases fi (Z.of_nat (length L))) as [Hin|Hout].
    - destruct (cache_set_init_loop assoc fi L n1) as (ls & Hrun & Hl & _);
        [lia..|]. eauto.
    - replace n1 with 0%nat by lia. cbn [for_loop]. eauto. }
  destruct Hprefix as (lru & ls & -> & Hl). cbn [mbind result_bind for_loop].
  rewrite aget_None; [done|].
  unfold wrap64. rewrite Z.mod_small by lia. lia.
Qed.

Lemma cache_set_init_out_of_bounds_witness :
  cache_set_init 2 [zero_line; zero_line; zero_line] 2 = Undefined OutOfBounds.
Proof.
  apply (cache_set_init_out_of_bounds 2 [zero_line; zero_line; zero_line] 2).
  - unfold INT_MAX. lia.
  - lia.
  - lia.
  - cbn. lia.
Defined.

(** ** The masks of a constructed cache *)

(** Every field of the cache [cache_new] returns. *)
Lemma cache_new_Ok_fields (mem nb bs assoc pol : Z) (c : cache_t) :
  is_size_t nb → is_size_t bs → is_size_t assoc →
  cache_new mem nb bs assoc pol = Ok c →
  0 < bs ∧ 0 < assoc
  ∧ 0 ≤ logbase2 bs ∧ 0 ≤ logbase2 (nb / bs / assoc)
  ∧ logbase2 bs + logbase2 (nb / bs / assoc) ≤ 8
  ∧ c = mk_cache (nb / bs / assoc) (nb / bs) bs assoc
          (2 ^ logbase2 bs - 1)
          ((2 ^ logbase2 (nb / bs / assoc) - 1) * 2 ^ logbase2 bs)
          (logbase2 bs)
          (2 ^ 8 - 2 ^ (logbase2 bs + logbase2 (nb / bs / assoc)))
          (logbase2 bs + logbase2 (nb / bs / assoc))
          pol mem
          (fresh_lines mem bs (nb / bs))
          (fresh_sets assoc (nb / bs / assoc)) 0 0.
Proof.
  intros Hnb Hbs Ha Hc.
  destruct (proj1 (cache_new_defined_iff mem nb bs assoc pol Hnb Hbs Ha))
    as (Hbs' & Ha' & Hsum & _); [eauto|].
  destruct (cache_new_Ok_inv _ _ _ _ _ _ Hnb Hbs Ha Hc)
    as (_ & _ & _ & m & Hm & ->).
  pose proof (logbase2_nonneg bs) as Hob.
  pose proof (logbase2_nonneg (nb / bs / assoc)) as Hib.
  rewrite !to_uint_small in Hm by lia.
  rewrite cache_new_masks_small in Hm by lia. injection Hm as <-.
  rewrite to_uint_small by lia. by cbn [fst snd].
Qed.

Lemma small_bit_counts (ob ib : Z) :
  0 ≤ ob → 0 ≤ ib → ob + ib ≤ 8 →
  (ob = 0 ∨ ob = 1 ∨ ob = 2 ∨ ob = 3 ∨ ob = 4 ∨ ob = 5 ∨ ob = 6 ∨ ob = 7
   ∨ ob = 8)
  ∧ (ib = 0 ∨ ib = 1 ∨ ib = 2 ∨ ib = 3 ∨ ib = 4 ∨ ib = 5 ∨ ib = 6 ∨ ib = 7
     ∨ ib = 8).
Proof. lia. Qed.

(** The three masks [cache_new] stores never overlap, and together they
    cover exactly the low eight bits of an address. *)
Theorem cache_new_masks_partition (mem nb bs assoc pol : Z) (c : cache_t) :
  is_size_t nb → is_size_t bs → is_size_t assoc →
  cache_new mem nb bs assoc pol = Ok c →
  Z.land (block_offset_mask c) (cache_index_mask c) = 0
  ∧ Z.land (block_offset_mask c) (tag_mask c) = 0
  ∧ Z.land (cache_index_mask c) (tag_mask c) = 0
  ∧ Z.lor (Z.lor (block_offset_mask c) (cache_index_mask c)) (tag_mask c)
    = 255.
Proof.
  intros Hnb Hbs Ha Hc.
  destruct (cache_new_Ok_fields _ _ _ _ _ _ Hnb Hbs Ha Hc)
    as (_ & _ & Hob & Hib & Hsum & ->).
  cbn [block_offset_mask cache_index_mask tag_mask]. clear Hc.
  generalize dependent (logbase2 (nb / bs / assoc)).
  generalize dependent (logbase2 bs). intros ob Hob ib Hib Hsum.
  destruct (small_bit_counts ob ib Hob Hib Hsum) as [Ho Hi].
  repeat (destruct Ho as [->|Ho]); try subst ob;
    repeat (destruct Hi as [->|Hi]); try subst ib;
    first [lia | by vm_compute].
Qed.

Lemma cache_new_masks_partition_witness :
  ∃ c, cache_new 4096 256 16 2 CACHE_REPLACEMENTPOLICY_LRU = Ok c
       ∧ Z.land (block_offset_mask c) (cache_index_mask c) = 0
       ∧ Z.land (block_offset_mask c) (tag_mask c) = 0
       ∧ Z.land (cache_index_mask c) (tag_mask c) = 0
       ∧ Z.lor (Z.lor (block_offset_mask c) (cache_index_mask c)) (tag_mask c)
         = 255.
Proof.
  eexists. split; [vm_compute; reflexivity|].
  apply (cache_new_masks_partition 4096 256 16 2 CACHE_REPLACEMENTPOLICY_LRU).
  - unfold is_size_t. lia.
  - unfold is_size_t. lia.
  - unfold is_size_t. lia.
  - vm_compute. reflexivity.
Defined.

(** A mask of [w] ones shifted left by [lo], applied and shifted back,
    extracts the [w]-bit field that starts at bit [lo]. *)
Lemma field_of_mask (a lo w : Z) :
  0 ≤ lo → 0 ≤ w →
  Z.shiftr (Z.land a ((2 ^ w - 1) * 2 ^ lo)) lo = (a / 2 ^ lo) mod 2 ^ w.
Proof.
  intros Hlo Hw.
  replace ((2 ^ w - 1) * 2 ^ lo) with (Z.shiftl (Z.ones w) lo)
    by (rewrite Z.shiftl_mul_pow2, Z.ones_equiv by lia; lia).
  rewrite Z.shiftr_land, Z.shiftr_shiftl_l, Z.sub_diag, Z.shiftl_0_r by lia.
  rewrite Z.land_ones, Z.shiftr_div_pow2 by lia. done.
Qed.

(** Decoding an address with the stored masks and shifts. The offset is
    below the line size and the set index below the number of sets (when
    there is a set), so neither can leave its array; and the three fields
    put back together give the address modulo [2^8]: nothing above the low
    eight bits of an address reaches any field. *)
Theorem cache_new_address_fields (mem nb bs assoc pol : Z) (c : cache_t)
    (a : Z) :
  is_size_t nb → is_size_t bs → is_size_t assoc →
  cache_new mem nb bs assoc pol = Ok c →
  0 ≤ Z.land a (block_offset_mask c) < line_size c
  ∧ (0 < num_sets c →
     0 ≤ Z.shiftr (Z.land a (cache_index_mask c)) (cache_index_shift c)
       < num_sets c)
  ∧ Z.shiftr (Z.land a (tag_mask c)) (tag_shift c) * 2 ^ tag_shift c
    + Z.shiftr (Z.land a (cache_index_mask c)) (cache_index_shift c)
      * 2 ^ cache_index_shift c
    + Z.land a (block_offset_mask c)
    = a mod 2 ^ 8.
Proof.
  intros Hnb Hbs Ha Hc.
  destruct (cache_new_Ok_fields _ _ _ _ _ _ Hnb Hbs Ha Hc)
    as (Hbs' & Ha' & Hob & Hib & Hsum & ->).
  cbn [block_offset_mask cache_index_mask cache_index_shift tag_mask
       tag_shift line_size num_sets]. clear Hc.
  pose proof (logbase2_log2 bs) as Hlb.
  pose proof (logbase2_log2 (nb / bs / assoc)) as Hls.
  set (ob := logbase2 bs) in *. set (ib := logbase2 (nb / bs / assoc)) in *.
  assert (Hpo : 0 < 2 ^ ob) by (apply Z.pow_pos_nonneg; lia).
  assert (Hpi : 0 < 2 ^ ib) by (apply Z.pow_pos_nonneg; lia).
  assert (Hpt : 0 < 2 ^ (8 - (ob + ib))) by (apply Z.pow_pos_nonneg; lia).
  assert (Hoff : Z.land a (2 ^ ob - 1) = a mod 2 ^ ob).
  { replace (2 ^ ob - 1) with (Z.ones ob) by (rewrite Z.ones_equiv; lia).
    apply Z.land_ones. lia. }
  assert (Hidx : Z.shiftr (Z.land a ((2 ^ ib - 1) * 2 ^ ob)) ob
                 = (a / 2 ^ ob) mod 2 ^ ib) by (apply field_of_mask; lia).
  assert (Htag : Z.shiftr (Z.land a (2 ^ 8 - 2 ^ (ob + ib))) (ob + ib)
                 = (a / 2 ^ (ob + ib)) mod 2 ^ (8 - (ob + ib))).
  { rewrite <- field_of_mask by lia. do 2 f_equal.
    rewrite Z.mul_sub_distr_r, <- Z.pow_add_r by lia.
    replace (8 - (ob + ib) + (ob + ib)) with 8 by lia. lia. }
  rewrite Hoff, Hidx, Htag. split; [|split].
  - pose proof (Z.mod_pos_bound a (2 ^ ob) Hpo).
    pose proof (Z.log2_spec bs Hbs'). rewrite <- Hlb in *. lia.
  - intros Hns. pose proof (Z.mod_pos_bound (a / 2 ^ ob) (2 ^ ib) Hpi).
    pose proof (Z.log2_spec (nb / bs / assoc) Hns). rewrite <- Hls in *. lia.
  - replace (2 ^ 8) with (2 ^ (ob + ib) * 2 ^ (8 - (ob + ib)))
      by (rewrite <- Z.pow_add_r by lia; f_equal; lia).
    rewrite Z.rem_mul_r by lia.
    rewrite (Z.pow_add_r 2 ob ib) by lia.
    rewrite (Z.rem_mul_r a (2 ^ ob) (2 ^ ib)) by lia. lia.
Qed.

Lemma cache_new_address_fields_witness :
  ∃ c, cache_new 4096 256 16 2 CACHE_REPLACEMENTPOLICY_LRU = Ok c
       ∧ 0 ≤ Z.land 437 (block_offset_mask c) < line_size c
       ∧ (0 < num_sets c →
          0 ≤ Z.shiftr (Z.land 437 (cache_index_mask c)) (cache_index_shift c)
            < num_sets c)
       ∧ Z.shiftr (Z.land 437 (tag_mask c)) (tag_shift c) * 2 ^ tag_shift c
         + Z.shiftr (Z.land 437 (cache_index_mask c)) (cache_index_shift c)
           * 2 ^ cache_index_shift c
         + Z.land 437 (block_offset_mask c)
         = 437 mod 2 ^ 8.
Proof.
  eexists. split; [vm_compute; reflexivity|].
  apply (cache_new_address_fields 4096 256 16 2 CACHE_REPLACEMENTPOLICY_LRU).
  - unfold is_size_t. lia.
  - unfold is_size_t. lia.
  - unfold is_size_t. lia.
  - vm_compute. reflexivity.
Defined.

Lemma logbase2_pow2 (k : Z) : 0 ≤ k → logbase2 (2 ^ k) = k.
Proof. intros H. rewrite logbase2_log2. by apply Z.log2_pow2. Qed.

(** With a power-of-two line size the offset mask is [line_size - 1] and
    the offset is the address modulo the line size; if the number of sets
    is a power of two as well, the index mask is
    [(num_sets - 1) * line_size] and the set index is the block number
    modulo the number of sets. *)
Theorem cache_new_power_of_two_fields (mem nb bs assoc pol : Z) (c : cache_t)
    (a : Z) :
  is_size_t nb → is_size_t bs → is_size_t assoc →
  cache_new mem nb bs assoc pol = Ok c →
  is_power_of_two (line_size c) →
  block_offset_mask c = line_size c - 1
  ∧ Z.land a (block_offset_mask c) = a mod line_size c
  ∧ (is_power_of_two (num_sets c) →
     cache_index_mask c = (num_sets c - 1) * line_size c
     ∧ Z.shiftr (Z.land a (cache_index_mask c)) (cache_index_shift c)
       = (a / line_size c) mod num_sets c).
Proof.
  intros Hnb Hbs Ha Hc.
  destruct (cache_new_Ok_fields _ _ _ _ _ _ Hnb Hbs Ha Hc)
    as (Hbs' & Ha' & Hob & Hib & Hsum & ->).
  cbn [block_offset_mask cache_index_mask cache_index_shift line_size
       num_sets]. clear Hc.
  intros (k & Hk & Hpow).
  assert (Hpo : 2 ^ logbase2 bs = bs) by (by rewrite Hpow, logbase2_pow2).
  split; [lia|]. split.
  - replace (2 ^ logbase2 bs - 1) with (Z.ones (logbase2 bs))
      by (rewrite Z.ones_equiv; lia).
    rewrite Z.land_ones by lia. by rewrite Hpo.
  - intros (j & Hj & Hpow').
    assert (Hpi : 2 ^ logbase2 (nb / bs / assoc) = nb / bs / assoc)
      by (by rewrite Hpow', logbase2_pow2).
    split; [by rewrite Hpi, Hpo|].
    rewrite field_of_mask by lia. by rewrite Hpi, Hpo.
Qed.

Lemma cache_new_power_of_two_fields_witness :
  ∃ c, cache_new 4096 256 16 2 CACHE_REPLACEMENTPOLICY_LRU = Ok c
       ∧ block_offset_mask c = line_size c - 1
       ∧ Z.land 437 (block_offset_mask c) = 437 mod line_size c
       ∧ (is_power_of_two (num_sets c) →
          cache_index_mask c = (num_sets c - 1) * line_size c
          ∧ Z.shiftr (Z.land 437 (cache_index_mask c)) (cache_index_shift c)
            = (437 / line_size c) mod num_sets c).
Proof.
  eexists. split; [vm_compute; reflexivity|].
  apply (cache_new_power_of_two_fields 4096 256 16 2
           CACHE_REPLACEMENTPOLICY_LRU).
  - unfold is_size_t. lia.
  - unfold is_size_t. lia.
  - unfold is_size_t. lia.
  - vm_compute. reflexivity.
  - exists 4. split; [lia | reflexivity].
Defined.

(** When the number of sets is not a power of two the index mask is
    narrower than the set array: no address selects the last set. *)
Theorem cache_new_last_set_unreachable (mem nb bs assoc pol : Z)
    (c : cache_t) (a : Z) :
  is_size_t nb → is_size_t bs → is_size_t assoc →
  cache_new mem nb bs assoc pol = Ok c →
  0 < num_sets c → ¬ is_power_of_two (num_sets c) →
  Z.shiftr (Z.land a (cache_index_mask c)) (cache_index_shift c)
  < num_sets c - 1.
Proof.
  intros Hnb Hbs Ha Hc.
  destruct (cache_new_Ok_fields _ _ _ _ _ _ Hnb Hbs Ha Hc)
    as (Hbs' & Ha' & Hob & Hib & Hsum & ->).
  cbn [cache_index_mask cache_index_shift num_sets]. clear Hc.
  intros Hns Hnp. rewrite field_of_mask by lia.
  set (ib := logbase2 (nb / bs / assoc)) in *.
  assert (Hpi : 0 < 2 ^ ib) by (apply Z.pow_pos_nonneg; lia).
  pose proof (Z.mod_pos_bound (a / 2 ^ logbase2 bs) (2 ^ ib) Hpi).
  pose proof (Z.log2_spec (nb / bs / assoc) Hns) as Hspec.
  rewrite <- logbase2_log2 in Hspec. fold ib in Hspec.
  assert (2 ^ ib ≠ nb / bs / assoc); [|lia].
  intros Heq. apply Hnp. exists ib. split; [lia | done].
Qed.

Lemma not_power_of_two_5 : ¬ is_power_of_two 5.
Proof.
  intros (k & Hk & E).
  destruct (Z.le_gt_cases 3 k) as [Hge|Hlt].
  - pose proof (Z.pow_le_mono_r 2 3 k). change (2 ^ 3) with 8 in *. lia.
  - assert (k = 0 ∨ k = 1 ∨ k = 2) as [->|[->| ->]] by lia; discriminate E.
Qed.

Lemma cache_new_last_set_unreachable_witness :
  ∃ c, cache_new 4096 256 16 3 0 = Ok c
       ∧ num_sets c = 5
       ∧ Z.shiftr (Z.land 192 (cache_index_mask c)) (cache_index_shift c)
         < num_sets c - 1.
Proof.
  eexists. split; [vm_compute; reflexivity|]. split; [reflexivity|].
  apply (cache_new_last_set_unreachable 4096 256 16 3 0).
  - unfold is_size_t. lia.
  - unfold is_size_t. lia.
  - unfold is_size_t. lia.
  - vm_compute. reflexivity.
  - cbn. lia.
  - exact not_power_of_two_5.
Defined.

(** ** The two ends of the recency list *)

Lemma last_last_use_order (uses : list Z) :
  last (last_use_order uses) = last uses.
Proof.
  induction uses as [|x uses IH]; [done|]. cbn [last_use_order].
  rewrite (last_cons x uses).
  destruct (decide (x ∈ uses)) as [Hx|Hx].
  - rewrite IH. destruct (last uses) eqn:E; [done|].
    apply last_None in E. subst uses. by apply not_elem_of_nil in Hx.
  - by rewrite last_cons, IH.
Qed.

Lemma make_mru_all_perm (c : cache_t) (uses : list Z) :
  is_size_t (associativity c) →
  ∀ s : cache_set_t,
    length (lru_list s) = Z.to_nat (associativity c) →
    NoDup (lru_list s) →
    (∀ x, x ∈ uses → x ∈ lru_list s) →
    ∃ s', make_mru_all c s uses = Ok s' ∧ lru_list s' ≡ₚ lru_list s.
Proof.
  intros Ha. induction uses as [|x uses IH]; intros s Hlen Hnd Hin.
  - exists s. done.
  - cbn [make_mru_all].
    destruct (cache_line_make_mru_NoDup c s x Ha Hlen Hnd) as [-> Hperm];
      [apply Hin; by left|].
    cbn [mbind result_bind].
    edestruct IH as (s' & -> & Hperm'); cbn [lru_list].
    + by rewrite Hperm.
    + by rewrite Hperm.
    + intros y Hy. rewrite Hperm. apply Hin. by right.
    + exists s'. split; [done|]. cbn [lru_list] in Hperm'.
      by rewrite Hperm', Hperm.
Qed.

(** Any sequence of uses of lines below [associativity] is defined and
    keeps the recency list a permutation of [0 .. associativity - 1]; the
    last position holds the line used last, and as long as some line was
    never used the first position, the one LRU replacement takes, holds a
    line that was never used. *)
Theorem make_mru_all_ends (c : cache_t) (s : cache_set_t) (uses : list Z) :
  is_size_t (associativity c) →
  lru_list s ≡ₚ seqZ 0 (associativity c) →
  (∀ x, x ∈ uses → 0 ≤ x < associativity c) →
  ∃ s',
    make_mru_all c s uses = Ok s'
    ∧ lru_list s' ≡ₚ seqZ 0 (associativity c)
    ∧ first_index s' = first_index s ∧ num_marked s' = num_marked s
    ∧ (∀ x, last uses = Some x → last (lru_list s') = Some x)
    ∧ (∀ y, 0 ≤ y < associativity c → y ∉ uses →
            ∃ v, head (lru_list s') = Some v ∧ v ∉ uses).
Proof.
  intros Ha Hperm Hin.
  assert (Hlen : length (lru_list s) = Z.to_nat (associativity c))
    by (rewrite Hperm; apply length_seqZ).
  assert (Hnd : NoDup (lru_list s)) by (rewrite Hperm; apply NoDup_seqZ).
  assert (Hin' : ∀ x, x ∈ uses → x ∈ lru_list s).
  { intros x Hx. rewrite Hperm. apply elem_of_seqZ. specialize (Hin x Hx). lia. }
  destruct (make_mru_all_perm c uses Ha s Hlen Hnd Hin') as (s' & Hrun & Hp).
  exists s'. split; [done|]. split; [by rewrite Hp|].
  rewrite (make_mru_all_order c uses Ha s Hlen Hnd Hin') in Hrun.
  injection Hrun as <-. cbn [first_index num_marked lru_list].
  split; [done|]. split; [done|]. split.
  - intros x Hx. by rewrite last_app, last_last_use_order, Hx.
  - intros y Hy Hny.
    assert (Hyf : y ∈ filter (λ z, z ∉ uses) (lru_list s)).
    { apply list_elem_of_filter. split; [done|].
      rewrite Hperm. apply elem_of_seqZ. lia. }
    destruct (filter (λ z, z ∉ uses) (lru_list s)) as [|v rest] eqn:E.
    + by apply not_elem_of_nil in Hyf.
    + exists v. split; [done|].
      assert (Hv : v ∈ filter (λ z, z ∉ uses) (lru_list s))
        by (rewrite E; by left).
      by apply list_elem_of_filter in Hv as [? _].
Qed.

Lemma make_mru_all_ends_witness :
  ∃ s',
    make_mru_all (mk_cache 1 4 16 4 15 0 4 192 6 4 4096 [] [] 0 0)
      (mk_set 0 [0; 1; 2; 3] 0) [2; 0; 2] = Ok s'
    ∧ lru_list s' ≡ₚ seqZ 0 4
    ∧ first_index s' = 0 ∧ num_marked s' = 0
    ∧ (∀ x, last [2; 0; 2] = Some x → last (lru_list s') = Some x)
    ∧ (∀ y, 0 ≤ y < 4 → y ∉ [2; 0; 2] →
            ∃ v, head (lru_list s') = Some v ∧ v ∉ [2; 0; 2]).
Proof.
  apply (make_mru_all_ends
           (mk_cache 1 4 16 4 15 0 4 192 6 4 4096 [] [] 0 0)
           (mk_set 0 [0; 1; 2; 3] 0) [2; 0; 2]).
  - unfold is_size_t. cbn. lia.
  - reflexivity.
  - intros x Hx. apply list_elem_of_In in Hx. cbn in Hx. cbn. lia.
Defined.

(** On a cache fresh from [cache_new], for any of its sets and any
    sequence of uses of lines below [associativity], the recency list ends
    as: the unused lines in increasing order, then the used lines in the
    order of their last use. *)
Theorem cache_new_then_make_mru_all (mem nb bs assoc pol : Z) (c : cache_t)
    (k : nat) (s : cache_set_t) (uses : list Z) :
  is_size_t nb → is_size_t bs → is_size_t assoc →
  cache_new mem nb bs assoc pol = Ok c →
  sets c !! k = Some s →
  (∀ x, x ∈ uses → 0 ≤ x < associativity c) →
  make_mru_all c s uses
  = Ok (mk_set (Z.of_nat k * associativity c)
          (filter (λ y, y ∉ uses) (seqZ 0 (associativity c))
           ++ last_use_order uses) 0).
Proof.
  intros Hnb Hbs Ha Hc Hs Hin.
  destruct (cache_new_Ok_fields _ _ _ _ _ _ Hnb Hbs Ha Hc)
    as (_ & _ & _ & _ & _ & ->).
  cbn [sets associativity] in *.
  apply fresh_sets_lookup_inv in Hs as [_ ->].
  rewrite make_mru_all_order; cbn [lru_list first_index num_marked associativity].
  - done.
  - exact Ha.
  - apply length_seqZ.
  - apply NoDup_seqZ.
  - intros x Hx. apply elem_of_seqZ. specialize (Hin x Hx). lia.
Qed.

Lemma cache_new_then_make_mru_all_witness :
  ∃ c s,
    cache_new 4096 256 16 2 CACHE_REPLACEMENTPOLICY_LRU = Ok c
    ∧ sets c !! 3%nat = Some s
    ∧ make_mru_all c s [0; 1; 0]
      = Ok (mk_set (Z.of_nat 3 * associativity c)
              (filter (λ y, y ∉ [0; 1; 0]) (seqZ 0 (associativity c))
               ++ last_use_order [0; 1; 0]) 0).
Proof.
  eexists _, _. split; [vm_compute; reflexivity|]. split; [reflexivity|].
  apply (cache_new_then_make_mru_all 4096 256 16 2
           CACHE_REPLACEMENTPOLICY_LRU).
  - unfold is_size_t. lia.
  - unfold is_size_t. lia.
  - unfold is_size_t. lia.
  - vm_compute. reflexivity.
  - reflexivity.
  - intros x Hx. apply list_elem_of_In in Hx. cbn in Hx. cbn. lia.
Defined.

(** ** Lines and sets of a constructed cache *)

(** In a constructed cache line [i] lies in set [k] exactly when
    [k = i / associativity]; each set's lines lie inside the line array;
    every line below [num_sets * associativity] has its set; and the
    [num_lines mod associativity] lines above belong to no set. *)
Theorem cache_new_sets_partition_lines (mem nb bs assoc pol : Z)
    (c : cache_t) :
  is_size_t nb → is_size_t bs → is_size_t assoc →
  cache_new mem nb bs assoc pol = Ok c →
  (∀ k s, sets c !! k = Some s →
     first_index s + associativity c ≤ num_lines c
     ∧ ∀ i, 0 ≤ i →
         (first_index s ≤ i < first_index s + associativity c
          ↔ i / associativity c = Z.of_nat k))
  ∧ (∀ i, 0 ≤ i < num_sets c * associativity c →
       ∃ s, sets c !! Z.to_nat (i / associativity c) = Some s
            ∧ first_index s ≤ i < first_index s + associativity c)
  ∧ num_lines c - num_sets c * associativity c
    = num_lines c mod associativity c.
Proof.
  intros Hnb Hbs Ha Hc.
  destruct (cache_new_Ok_fields _ _ _ _ _ _ Hnb Hbs Ha Hc)
    as (Hbs' & Ha' & _ & _ & _ & ->).
  cbn [sets associativity num_lines num_sets]. clear Hc.
  unfold is_size_t in *.
  assert (Hnl : 0 ≤ nb / bs) by (apply Z.div_pos; lia).
  assert (Hns : assoc * (nb / bs / assoc) ≤ nb / bs)
    by (apply Z.mul_div_le; lia).
  assert (Hmem : ∀ i k, 0 ≤ i → 0 ≤ k →
            (k * assoc ≤ i < k * assoc + assoc ↔ i / assoc = k)).
  { intros i k Hi Hk. split.
    - intros Hr. symmetry. apply (Z.div_unique i assoc k (i - k * assoc)); lia.
    - intros <-. pose proof (Z.mul_div_le i assoc Ha').
      pose proof (Z.mul_succ_div_gt i assoc Ha'). lia. }
  split; [|split].
  - intros k s Hs. apply fresh_sets_lookup_inv in Hs as [Hk ->].
    cbn [first_index]. split; [nia|]. intros i Hi. apply Hmem; lia.
  - intros i Hi.
    assert (Hq : 0 ≤ i / assoc < nb / bs / assoc).
    { split; [apply Z.div_pos; lia|]. apply Z.div_lt_upper_bound; lia. }
    eexists. split; [apply fresh_sets_lookup; lia|].
    cbn [first_index]. apply Hmem; lia.
  - pose proof (Z.div_mod (nb / bs) assoc). lia.
Qed.

Lemma cache_new_sets_partition_lines_witness :
  ∃ c, cache_new 4096 256 16 3 0 = Ok c
       ∧ (∀ k s, sets c !! k = Some s →
            first_index s + associativity c ≤ num_lines c
            ∧ ∀ i, 0 ≤ i →
                (first_index s ≤ i < first_index s + associativity c
                 ↔ i / associativity c = Z.of_nat k))
       ∧ (∀ i, 0 ≤ i < num_sets c * associativity c →
            ∃ s, sets c !! Z.to_nat (i / associativity c) = Some s
                 ∧ first_index s ≤ i < first_index s + associativity c)
       ∧ num_lines c - num_sets c * associativity c
         = num_lines c mod associativity c.
Proof.
  eexists. split; [vm_compute; reflexivity|].
  apply (cache_new_sets_partition_lines 4096 256 16 3 0).
  - unfold is_size_t. lia.
  - unfold is_size_t. lia.
  - unfold is_size_t. lia.
  - vm_compute. reflexivity.
Defined.

(** ** Installing into a constructed cache *)



(** ** [maskbits] *)

(** [maskbits] is defined for widths [0] to [62] only, and there the mask
    keeps exactly the low [nbits] bits of any value; a mask of 63 or 64
    bits, or of a negative width, cannot be had from it. *)
Theorem maskbits_spec (nbits : Z) :
  (0 ≤ nbits ≤ 62 →
   ∃ m, maskbits nbits = Ok m ∧ 0 ≤ m < 2 ^ 62
        ∧ ∀ x, Z.land x m = x mod 2 ^ nbits)
  ∧ (nbits < 0 ∨ 62 < nbits → maskbits nbits = Undefined ShiftOutOfRange).
Proof.
  split.
  - intros H. exists (2 ^ nbits - 1). split; [by apply maskbits_small|].
    split.
    + pose proof (Z.pow_pos_nonneg 2 nbits).
      pose proof (Z.pow_le_mono_r 2 nbits 62). lia.
    + intros x.
      replace (2 ^ nbits - 1) with (Z.ones nbits) by (rewrite Z.ones_equiv; lia).
      apply Z.land_ones. lia.
  - intros H. unfold maskbits.
    destruct (Z.leb_spec 0 nbits), (Z.leb_spec nbits 62); (done || lia).
Qed.

Lemma maskbits_spec_witness :
  ∃ m, maskbits 4 = Ok m ∧ 0 ≤ m < 2 ^ 62 ∧ ∀ x, Z.land x m = x mod 2 ^ 4.
Proof. apply (proj1 (maskbits_spec 4)). lia. Defined.

(** ** A cache too small for one set *)


